(** * fbtextdemo: word layout and glyph compositing

    A shallow embedding of the text layout core of [src/main.c]
    (UTF-8 decoding, word measuring, line breaking, centring, glyph
    compositing) and of the pixel sink of [src/framebuffer.c], with the
    properties of the layout specification stated over it.

    Conventions of the embedding.
    - A C [int] (and FreeType's [FT_Pos], a signed [long]) is a [Z].  Signed
      overflow is undefined in C, so the embedding describes the executions
      in which no intermediate value leaves the range of its type; on those
      the arithmetic of [Z] is the arithmetic of the program.
    - C's [/] on signed operands truncates toward zero: it is [Z.quot].
    - A [for (int i = 0; i < n; i++)] loop is [for_loop]; a [while] loop
      whose termination is not evident from its shape carries fuel.
    - Mapped or allocated memory that is addressed by offset is a function
      from offsets to bytes, or a list when its bounds matter.  Where the
      size of a block decides what a statement is worth, the size is
      carried along and the stores are checked against it
      ([pixels_mapped], [compute_glyph_lines_checked]). *)

From Stdlib Require Import ZArith Zbitwise List Bool Lia Sorted.
Import ListNotations.
Local Open Scope Z_scope.

(** ** Loops *)

Section Loops.
Context {S : Type}.

(** [for_from n i body s]: [n] iterations of [body], the index starting
    at [i] and growing by one. *)
Fixpoint for_from (n : nat) (i : Z) (body : Z -> S -> S) (s : S) : S :=
  match n with
  | O => s
  | Datatypes.S n' => for_from n' (i + 1) body (body i s)
  end.

(** [for (int i = 0; i < bound; i++) body]; no iteration when
    [bound <= 0]. *)
Definition for_loop (bound : Z) (body : Z -> S -> S) (s : S) : S :=
  for_from (Z.to_nat bound) 0 body s.
End Loops.

(** ** Types of [defs.h] *)

(** Modelled from the spec: [defs.h], which declares [BYTE], [UTF8] and
    [UTF32], is not among the sources.  The specification's data model makes
    a codepoint a 32-bit scalar and a coverage value an 8-bit intensity; the
    decoder reads its input byte by byte.  Values of the three types are
    represented by their numeric value. *)
Definition BYTE := Z.
Definition UTF8 := Z.
Definition UTF32 := Z.

(** A null-terminated UTF-32 string, as the list of the cells before the
    terminator that ends the allocation.  A reader stops at the first zero
    cell, or at the end of the list (the terminator itself). *)
Definition UTF32_string := list UTF32.

(** ** The FreeType face, as the program sees it *)

(** [face->glyph->metrics], in 26.6 fixed point. *)
Record FT_Glyph_Metrics := {
  metrics_width : Z;
  metrics_horiBearingY : Z;
  metrics_horiAdvance : Z
}.

(** [face->glyph->bitmap] after rendering. [bitmap_buffer] is the memory
    behind [buffer], read at an offset. *)
Record FT_Bitmap := {
  bitmap_rows : Z;
  bitmap_width : Z;
  bitmap_pitch : Z;
  bitmap_buffer : Z -> BYTE
}.

Record FT_GlyphSlot := {
  glyph_metrics : FT_Glyph_Metrics;
  glyph_bitmap : FT_Bitmap
}.

(** The load flags that the program passes to [FT_Load_Glyph], with the
    values that [freetype.h] gives them. *)
Definition FT_LOAD_DEFAULT : Z := 0.
Definition FT_LOAD_NO_BITMAP : Z := 8.

(** FreeType is an external library.  A face is what the program reads from
    it: the bounding box, the scaled line height, the character map
    ([FT_Get_Char_Index]) and, for a glyph index and load flags, the glyph
    that [FT_Load_Glyph] leaves in [face->glyph]; its [glyph_bitmap] is the
    bitmap that [FT_Render_Glyph] then makes of it, which only the drawing
    code asks for. *)
Record FT_Face := {
  face_bbox_yMax : Z;
  face_size_metrics_height : Z;
  FT_Get_Char_Index : Z -> Z;
  FT_Load_Glyph : Z -> Z -> FT_GlyphSlot
}.

(** ** Structures of [main.c] *)

Record WordGlyphs := {
  word32 : UTF32_string;
  x_extent : Z;
  y_extent : Z
}.

Record GlyphsLine := {
  line_word32 : list UTF32_string;
  y_position : Z;
  word_count : Z
}.

Record GlyphsBoundary := {
  init_x : Z;
  init_y : Z;
  width : Z;
  height : Z
}.

Inductive TextAlignmentType := Left | Center.

(** ** Measuring *)

(** [face_get_line_spacing] *)
Definition face_get_line_spacing (face : FT_Face) : Z :=
  Z.quot (face_size_metrics_height face) 64.

(** [face_get_char_extent]: the pair [(x, y)] written through the two
    out-parameters. *)
Definition face_get_char_extent (face : FT_Face) (c : Z) : Z * Z :=
  let gi := FT_Get_Char_Index face c in
  let glyph := FT_Load_Glyph face gi FT_LOAD_NO_BITMAP in
  let y := face_get_line_spacing face in
  let x := Z.quot (metrics_horiAdvance (glyph_metrics glyph)) 64 in
  (x, y).

(** The [while ( *s )] loop of [face_get_string_extent], from the
    accumulated [( *x, y_extent)]. *)
Fixpoint string_extent_loop (face : FT_Face) (s : UTF32_string) (acc : Z * Z)
  : Z * Z :=
  match s with
  | [] => acc
  | c :: s' =>
      if c =? 0 then acc
      else
        let '(x_extent, y_extent) := face_get_char_extent face c in
        string_extent_loop face s' (fst acc + x_extent, y_extent)
  end.

(** [face_get_string_extent] *)
Definition face_get_string_extent (face : FT_Face) (s : UTF32_string) : Z * Z :=
  string_extent_loop face s (0, 0).

(** The static string [utf32_space]. *)
Definition utf32_space : UTF32_string := [32].

(** ** Line breaking *)

(** The local variables of [compute_glyph_lines] that the loop updates.
    [words_in_curr_line] holds the cells of the array written so far and
    [glyph_lines] the entries of the output array written so far. *)
Record LoopState := {
  curr_x : Z;
  curr_y : Z;
  words_in_curr_line : list UTF32_string;
  curr_line_word_count : Z;
  displayable_word_count : Z;
  glyph_lines : list GlyphsLine;
  line_count : Z;
  height_is_overflowed : bool
}.

Section LineBreaker.
Variable space_x : Z.
Variable line_spacing : Z.
Variable glyphs_boundary : GlyphsBoundary.

(** The height test at the head of the loop body. *)
Definition no_more_space (s : LoopState) : bool :=
  curr_y s + line_spacing >=? init_y glyphs_boundary + height glyphs_boundary.

(** [is_end_of_line] for a word whose advance is [curr_word_x_advance]. *)
Definition is_end_of_line (s : LoopState) (curr_word_x_advance : Z) : bool :=
  curr_x s + curr_word_x_advance >? width glyphs_boundary.

(** The body of [if (is_end_of_line && curr_line_word_count > 0)]. *)
Definition close_line (s : LoopState) : LoopState :=
  {| curr_x := init_x glyphs_boundary;
     curr_y := curr_y s + line_spacing;
     words_in_curr_line := [];
     curr_line_word_count := 0;
     displayable_word_count :=
       displayable_word_count s + curr_line_word_count s;
     glyph_lines :=
       glyph_lines s ++
         [ {| line_word32 := words_in_curr_line s;
              y_position := curr_y s;
              word_count := curr_line_word_count s |} ];
     line_count := line_count s + 1;
     height_is_overflowed := height_is_overflowed s |}.

(** The last three statements of the loop body. *)
Definition place_word (w : WordGlyphs) (curr_word_x_advance : Z)
    (s : LoopState) : LoopState :=
  {| curr_x := curr_x s + curr_word_x_advance;
     curr_y := curr_y s;
     words_in_curr_line := words_in_curr_line s ++ [word32 w];
     curr_line_word_count := curr_line_word_count s + 1;
     displayable_word_count := displayable_word_count s;
     glyph_lines := glyph_lines s;
     line_count := line_count s;
     height_is_overflowed := height_is_overflowed s |}.

(** [height_is_overflowed = true; break;] *)
Definition overflow (s : LoopState) : LoopState :=
  {| curr_x := curr_x s;
     curr_y := curr_y s;
     words_in_curr_line := words_in_curr_line s;
     curr_line_word_count := curr_line_word_count s;
     displayable_word_count := displayable_word_count s;
     glyph_lines := glyph_lines s;
     line_count := line_count s;
     height_is_overflowed := true |}.

(** The [for] loop over the words not yet visited. *)
Fixpoint glyph_lines_loop (words : list WordGlyphs) (s : LoopState)
  : LoopState :=
  match words with
  | [] => s
  | curr_word_glyps :: rest =>
      let curr_word_x_extent := x_extent curr_word_glyps in
      let curr_word_x_advance := curr_word_x_extent + space_x in
      if no_more_space s then overflow s
      else
        let s1 :=
          if is_end_of_line s curr_word_x_advance
             && (curr_line_word_count s >? 0)
          then close_line s else s in
        glyph_lines_loop rest (place_word curr_word_glyps curr_word_x_advance s1)
  end.

(** The state on entry to the loop. *)
Definition loop_entry : LoopState :=
  {| curr_x := init_x glyphs_boundary;
     curr_y := init_y glyphs_boundary;
     words_in_curr_line := [];
     curr_line_word_count := 0;
     displayable_word_count := 0;
     glyph_lines := [];
     line_count := 0;
     height_is_overflowed := false |}.

(** The code after the loop: the lines returned. *)
Definition write_last_line (s : LoopState) : list GlyphsLine :=
  if negb (height_is_overflowed s) then
    glyph_lines s ++
      [ {| line_word32 := words_in_curr_line s;
           y_position := curr_y s;
           word_count := curr_line_word_count s |} ]
  else glyph_lines s.

(** The value stored in [*out_line_count]. *)
Definition out_line_count_of (s : LoopState) : Z :=
  if negb (height_is_overflowed s) then line_count s + 1 else line_count s.
End LineBreaker.

(** [compute_glyph_lines]: the lines that its statements write, of which
    [*out_line_count] is the length ([out_line_count_length]), the two
    arrays being lists that grow as cells are written.  [word_glyps] and
    [word_count] are one list.  [compute_glyph_lines_checked] adds the two
    allocations and the sizes of their blocks; for one word or more every
    store is inside its block and the call returns these lines
    ([compute_glyph_lines_checked_agrees]). *)
Definition compute_glyph_lines (face : FT_Face)
    (glyphs_boundary : GlyphsBoundary) (word_glyps : list WordGlyphs)
  : list GlyphsLine :=
  let space_x := fst (face_get_string_extent face utf32_space) in
  let line_spacing := face_get_line_spacing face in
  write_last_line
    (glyph_lines_loop space_x line_spacing glyphs_boundary word_glyps
       (loop_entry glyphs_boundary)).

(** The final state of the loop of [compute_glyph_lines]. *)
Definition compute_glyph_lines_state (face : FT_Face)
    (glyphs_boundary : GlyphsBoundary) (word_glyps : list WordGlyphs)
  : LoopState :=
  glyph_lines_loop (fst (face_get_string_extent face utf32_space))
    (face_get_line_spacing face) glyphs_boundary word_glyps
    (loop_entry glyphs_boundary).

(** ** Centring *)

(** [compute_init_x_to_center_line].  [glyph_line->word32[i]] is the [i]-th
    cell of the line's array. *)
Definition compute_init_x_to_center_line (face : FT_Face)
    (glyph_line : GlyphsLine) (glyphs_boundary : GlyphsBoundary) : Z :=
  let space_x := fst (face_get_string_extent face utf32_space) in
  let word_count := word_count glyph_line in
  let line_width := 0 in
  let line_width := line_width + (word_count - 1) * space_x in
  let line_width :=
    for_loop word_count
      (fun curr_glyph_idx line_width =>
         let word_x :=
           fst (face_get_string_extent face
                  (nth (Z.to_nat curr_glyph_idx) (line_word32 glyph_line) []))
         in
         line_width + word_x)
      line_width in
  let middle_x := Z.quot (width glyphs_boundary) 2 in
  let middle_line := Z.quot line_width 2 in
  let init_x := (middle_x - middle_line) + init_x glyphs_boundary in
  init_x.

(** ** The framebuffer of [framebuffer.c] *)

(** [struct _FrameBuffer] without the device handle and name.  [fb_data] is
    the memory at and after the address that [mmap] returns, by byte
    offset; the mapping itself is its first [fb_data_size] bytes.  A store
    at an offset outside them is written as any other; the statements for
    which it matters restrict the offsets ([pixels_mapped]). *)
Record FrameBuffer := {
  fb_w : Z;
  fb_h : Z;
  fb_data_size : Z;
  fb_data : Z -> BYTE;
  fb_bytes : Z;
  fb_line_length : Z;
  fb_stride : Z;
  fb_slop : Z
}.

(** [data[i] = v] *)
Definition store (data : Z -> BYTE) (i : Z) (v : BYTE) : Z -> BYTE :=
  fun k => if k =? i then v else data k.

Definition with_fb_data (self : FrameBuffer) (data : Z -> BYTE) : FrameBuffer :=
  {| fb_w := fb_w self;
     fb_h := fb_h self;
     fb_data_size := fb_data_size self;
     fb_data := data;
     fb_bytes := fb_bytes self;
     fb_line_length := fb_line_length self;
     fb_stride := fb_stride self;
     fb_slop := fb_slop self |}.

(** The test shared by [framebuffer_set_pixel] and [framebuffer_get_pixel]. *)
Definition inside (self : FrameBuffer) (x y : Z) : bool :=
  (x >? 0) && (x <? fb_w self) && (y >? 0) && (y <? fb_h self).

(** [index32] as both functions compute it. *)
Definition pixel_index (self : FrameBuffer) (x y : Z) : Z :=
  (y * fb_w self + x) * fb_bytes self + y * fb_slop self.

(** [framebuffer_set_pixel] *)
Definition framebuffer_set_pixel (self : FrameBuffer) (x y : Z)
    (r g b : BYTE) : FrameBuffer :=
  if inside self x y then
    let index32 := pixel_index self x y in
    let data := store (fb_data self) index32 b in
    let index32 := index32 + 1 in
    let data := store data index32 g in
    let index32 := index32 + 1 in
    let data := store data index32 r in
    let index32 := index32 + 1 in
    let data := store data index32 0 in
    with_fb_data self data
  else self.

(** [framebuffer_get_pixel]: the triple [(r, g, b)] written through the
    out-parameters. *)
Definition framebuffer_get_pixel (self : FrameBuffer) (x y : Z)
  : BYTE * BYTE * BYTE :=
  if inside self x y then
    let index32 := pixel_index self x y in
    let b := fb_data self index32 in
    let g := fb_data self (index32 + 1) in
    let r := fb_data self (index32 + 2) in
    (r, g, b)
  else (0, 0, 0).

(** The fields that [framebuffer_init] computes from what the device
    reports ([vinfo.xres], [vinfo.yres], [vinfo.bits_per_pixel],
    [finfo.line_length]); [data] is the memory that [mmap] returns. *)
Definition framebuffer_init (xres yres bits_per_pixel line_length : Z)
    (data : Z -> BYTE) : FrameBuffer :=
  let w := xres in
  let h := yres in
  let fb_bpp := bits_per_pixel in
  let fb_bytes := Z.quot fb_bpp 8 in
  let stride := Z.max line_length (w * fb_bytes) in
  {| fb_w := w;
     fb_h := h;
     fb_data_size := w * h * fb_bytes;
     fb_data := data;
     fb_bytes := fb_bytes;
     fb_line_length := line_length;
     fb_stride := stride;
     fb_slop := stride - w * fb_bytes |}.

(** ** Glyph compositing *)

(** [face_draw_char_on_fb]: the framebuffer after the call and the new
    value of [*x]. *)
Definition face_draw_char_on_fb (face : FT_Face) (fb : FrameBuffer)
    (c : Z) (x y : Z) : FrameBuffer * Z :=
  let gi := FT_Get_Char_Index face c in
  let glyph := FT_Load_Glyph face gi FT_LOAD_DEFAULT in
  let bbox_ymax := Z.quot (face_bbox_yMax face) 64 in
  let y_off :=
    bbox_ymax - Z.quot (metrics_horiBearingY (glyph_metrics glyph)) 64 in
  let glyph_width := Z.quot (metrics_width (glyph_metrics glyph)) 64 in
  let advance := Z.quot (metrics_horiAdvance (glyph_metrics glyph)) 64 in
  let x_off := Z.quot (advance - glyph_width) 2 in
  let bitmap := glyph_bitmap glyph in
  let fb :=
    for_loop (bitmap_rows bitmap)
      (fun i fb =>
         let row_offset := y + i + y_off in
         for_loop (bitmap_width bitmap)
           (fun j fb =>
              let p := bitmap_buffer bitmap (i * bitmap_pitch bitmap + j) in
              if negb (p =? 0)
              then framebuffer_set_pixel fb (x + j + x_off) row_offset p p p
              else fb)
           fb)
      fb in
  (fb, x + advance).

(** [face_draw_string_on_fb] *)
Fixpoint face_draw_string_on_fb (face : FT_Face) (fb : FrameBuffer)
    (s : UTF32_string) (x y : Z) : FrameBuffer * Z :=
  match s with
  | [] => (fb, x)
  | c :: s' =>
      if c =? 0 then (fb, x)
      else
        let '(fb, x) := face_draw_char_on_fb face fb c x y in
        face_draw_string_on_fb face fb s' x y
  end.

(** The loop over the words of one line in [draw_word_glyphs]. *)
Definition draw_line_words (face : FT_Face) (curr_glyph_line : GlyphsLine)
    (y : Z) (st : FrameBuffer * Z) : FrameBuffer * Z :=
  for_loop (word_count curr_glyph_line)
    (fun curr_word_idx '(fb, x) =>
       let curr_word :=
         nth (Z.to_nat curr_word_idx) (line_word32 curr_glyph_line) [] in
       let '(fb, x) := face_draw_string_on_fb face fb curr_word x y in
       face_draw_string_on_fb face fb utf32_space x y)
    st.

(** [draw_word_glyphs], when [compute_glyph_lines] returns its array. *)
Definition draw_word_glyphs (face : FT_Face) (fb : FrameBuffer)
    (text_alignment : TextAlignmentType) (glyphs_boundary : GlyphsBoundary)
    (word_glyps : list WordGlyphs) : FrameBuffer :=
  let glyph_lines := compute_glyph_lines face glyphs_boundary word_glyps in
  fold_left
    (fun fb curr_glyph_line =>
       let x :=
         match text_alignment with
         | Center =>
             compute_init_x_to_center_line face curr_glyph_line glyphs_boundary
         | Left => init_x glyphs_boundary
         end in
       let y := y_position curr_glyph_line in
       fst (draw_line_words face curr_glyph_line y (fb, x)))
    glyph_lines fb.

(** ** UTF-8 decoding *)

(** What a run of the decoder comes to: a value, a read outside the input
    buffer, or no end within the fuel given. *)
Inductive outcome (A : Type) : Type :=
| Done (a : A)
| OutOfBounds
| OutOfFuel.
Arguments Done {A} a.
Arguments OutOfBounds {A}.
Arguments OutOfFuel {A}.

Definition bind {A B : Type} (m : outcome A) (k : A -> outcome B) : outcome B :=
  match m with
  | Done a => k a
  | OutOfBounds => OutOfBounds
  | OutOfFuel => OutOfFuel
  end.

Notation "x <- m ;; k" := (bind m (fun x => k))
  (at level 61, m at next level, right associativity).

(** The input buffer is the list of its bytes, the terminating zero
    included; a pointer into it is an offset from its first byte.
    [load8 buf p] is [*(buf + p)]. *)
Definition load8 (buf : list UTF8) (p : Z) : outcome UTF8 :=
  if (0 <=? p) && (p <? Z.of_nat (length buf))
  then Done (nth (Z.to_nat p) buf 0)
  else OutOfBounds.

(** [next_utf8_glyph_length] *)
Definition next_utf8_glyph_length (buf : list UTF8) (word : Z) : outcome Z :=
  b <- load8 buf word ;;
  if Z.land b 0x80 =? 0 then Done 1
  else if Z.land b 0xE0 =? 0xC0 then Done 2
  else if Z.land b 0xF0 =? 0xE0 then Done 3
  else if Z.land b 0xF8 =? 0xF0 then Done 4
  else Done (-1).

Section Decoder.
(** What the block returned by [malloc] holds, cell by cell, before the
    decoder writes to it. *)
Variable malloc_content : Z -> UTF32.

Variable buf : list UTF8.

(** The first [while] loop of [utf8_to_utf32], which counts the glyphs. *)
Fixpoint count_glyphs (fuel : nat) (utf8_word_ptr word_length : Z)
  : outcome Z :=
  match fuel with
  | O => OutOfFuel
  | S fuel' =>
      c <- load8 buf utf8_word_ptr ;;
      if c =? 0 then Done word_length
      else
        curr_glyph_length <- next_utf8_glyph_length buf utf8_word_ptr ;;
        count_glyphs fuel' (utf8_word_ptr + curr_glyph_length)
          (word_length + 1)
  end.

(** The value left in [*utf32_word_ptr] by the [if] chain of the second
    loop, for the cell of index [cell]. *)
Definition decode_glyph (utf8_word_ptr curr_glyph_length cell : Z)
  : outcome UTF32 :=
  if curr_glyph_length =? 1 then
    load8 buf utf8_word_ptr
  else if curr_glyph_length =? 2 then
    b0 <- load8 buf utf8_word_ptr ;;
    let v := Z.shiftl (Z.land b0 0x1F) 6 in
    b1 <- load8 buf (utf8_word_ptr + 1) ;;
    Done (Z.lor v (Z.land b1 0x3F))
  else if curr_glyph_length =? 3 then
    b0 <- load8 buf utf8_word_ptr ;;
    let v := Z.shiftl (Z.land b0 0x0F) 12 in
    b1 <- load8 buf (utf8_word_ptr + 1) ;;
    let v := Z.lor v (Z.shiftl (Z.land b1 0x3F) 6) in
    b2 <- load8 buf (utf8_word_ptr + 2) ;;
    Done (Z.lor v (Z.land b2 0x3F))
  else if curr_glyph_length =? 4 then
    b0 <- load8 buf utf8_word_ptr ;;
    let v := Z.shiftl (Z.land b0 0x07) 18 in
    b1 <- load8 buf (utf8_word_ptr + 1) ;;
    let v := Z.lor v (Z.shiftl (Z.land b1 0x3F) 12) in
    b2 <- load8 buf (utf8_word_ptr + 2) ;;
    let v := Z.lor v (Z.shiftl (Z.land b2 0x3F) 6) in
    b3 <- load8 buf (utf8_word_ptr + 3) ;;
    Done (Z.lor v (Z.land b3 0x3F))
  else Done (malloc_content cell).

(** The second [while] loop, which fills the cells; [utf32_word] is the
    list of the cells passed so far. *)
Fixpoint convert_glyphs (fuel : nat) (utf8_word_ptr : Z)
    (utf32_word : list UTF32) : outcome (list UTF32) :=
  match fuel with
  | O => OutOfFuel
  | S fuel' =>
      c <- load8 buf utf8_word_ptr ;;
      if c =? 0 then Done utf32_word
      else
        curr_glyph_length <- next_utf8_glyph_length buf utf8_word_ptr ;;
        v <- decode_glyph utf8_word_ptr curr_glyph_length
               (Z.of_nat (length utf32_word)) ;;
        convert_glyphs fuel' (utf8_word_ptr + curr_glyph_length)
          (utf32_word ++ [v])
  end.

(** [utf8_to_utf32]: the cells of the returned string before its
    terminator.  Each loop may take [fuel] iterations. *)
Definition utf8_to_utf32 (fuel : nat) : outcome UTF32_string :=
  word_length <- count_glyphs fuel 0 0 ;;
  convert_glyphs fuel 0 [].
End Decoder.

(** ** Reference definitions, from the specification *)

(** The 4-byte UTF-8 encoding of a scalar value:
    [11110xxx 10xxxxxx 10xxxxxx 10xxxxxx]. *)
Definition utf8_encode4 (c : Z) : list UTF8 :=
  [ Z.lor 0xF0 (Z.shiftr c 18);
    Z.lor 0x80 (Z.land (Z.shiftr c 12) 0x3F);
    Z.lor 0x80 (Z.land (Z.shiftr c 6) 0x3F);
    Z.lor 0x80 (Z.land c 0x3F) ].

(** The wrap test of the specification's line breaker: the threshold is
    [originX + width]. *)
Definition spec_wraps (glyphs_boundary : GlyphsBoundary) (currentX advance : Z)
    (words_on_line : Z) : bool :=
  (currentX + advance >? init_x glyphs_boundary + width glyphs_boundary)
  && (words_on_line >? 0).

(** The height bound of the specification: a line at [y] may be output
    when [y] plus the line spacing stays below [originY + height]. *)
Definition line_fits (glyphs_boundary : GlyphsBoundary) (line_spacing y : Z)
  : bool :=
  y + line_spacing <? init_y glyphs_boundary + height glyphs_boundary.

(** The glyph of a codepoint as the compositor loads it, and the
    quantities of the specification's compositor, in pixels. *)
Definition glyph_of (face : FT_Face) (c : Z) : FT_GlyphSlot :=
  FT_Load_Glyph face (FT_Get_Char_Index face c) FT_LOAD_DEFAULT.

Definition advance_of (face : FT_Face) (c : Z) : Z :=
  Z.quot (metrics_horiAdvance (glyph_metrics (glyph_of face c))) 64.

(** [yOffset = bboxYMax - bearingY] *)
Definition y_off_of (face : FT_Face) (c : Z) : Z :=
  Z.quot (face_bbox_yMax face) 64
  - Z.quot (metrics_horiBearingY (glyph_metrics (glyph_of face c))) 64.

(** [xOffset = (advance - glyphWidth) / 2] *)
Definition x_off_of (face : FT_Face) (c : Z) : Z :=
  Z.quot
    (advance_of face c
     - Z.quot (metrics_width (glyph_metrics (glyph_of face c))) 64)
    2.

(** The cells of a glyph bitmap whose coverage is not zero, row by row,
    each with the pixel the specification has the compositor write for it:
    [(penX + j + xOffset, penY + i + yOffset, coverage)]. *)
Definition coverage_writes (face : FT_Face) (c penX penY : Z)
  : list (Z * Z * BYTE) :=
  let bitmap := glyph_bitmap (glyph_of face c) in
  flat_map
    (fun i =>
       flat_map
         (fun j =>
            let p := bitmap_buffer bitmap (i * bitmap_pitch bitmap + j) in
            if p =? 0 then []
            else [(penX + j + x_off_of face c, penY + i + y_off_of face c, p)])
         (map Z.of_nat (seq 0 (Z.to_nat (bitmap_width bitmap)))))
    (map Z.of_nat (seq 0 (Z.to_nat (bitmap_rows bitmap)))).

(** The width of a line for centring: the widths of its words and one
    space between neighbours. *)
Definition spec_line_width (face : FT_Face) (words : list UTF32_string) : Z :=
  let spaceWidth := fst (face_get_string_extent face utf32_space) in
  fold_right Z.add 0 (map (fun w => fst (face_get_string_extent face w)) words)
  + (Z.of_nat (length words) - 1) * spaceWidth.

(** ** Concrete inputs *)

(** A face in which every glyph advances by [adv] pixels and has no bitmap,
    with a line spacing of [spacing] pixels. *)
Definition empty_bitmap : FT_Bitmap :=
  {| bitmap_rows := 0; bitmap_width := 0; bitmap_pitch := 0;
     bitmap_buffer := fun _ => 0 |}.

Definition fixed_face (adv spacing : Z) : FT_Face :=
  {| face_bbox_yMax := 64 * spacing;
     face_size_metrics_height := 64 * spacing;
     FT_Get_Char_Index := fun c => c;
     FT_Load_Glyph := fun _ _ =>
       {| glyph_metrics :=
            {| metrics_width := 64 * adv;
               metrics_horiBearingY := 0;
               metrics_horiAdvance := 64 * adv |};
          glyph_bitmap := empty_bitmap |} |}.

(** A word with the extents that [main] stores for it. *)
Definition measured (face : FT_Face) (w : UTF32_string) : WordGlyphs :=
  {| word32 := w;
     x_extent := fst (face_get_string_extent face w);
     y_extent := snd (face_get_string_extent face w) |}.

(** The letters [AAAA], 40 pixels wide in [fixed_face 10 _]. *)
Definition word_AAAA : UTF32_string := [65; 65; 65; 65].

(** The face of the examples: every glyph advances by 10 pixels, lines
    are 20 pixels apart. *)
Definition demo_face : FT_Face := fixed_face 10 20.

(** The boundary that [main] builds when no option is given. *)
Definition main_boundary : GlyphsBoundary :=
  {| init_x := 5; init_y := 5; width := 500; height := 500 |}.

Definition narrow_boundary : GlyphsBoundary :=
  {| init_x := 5; init_y := 7; width := 100; height := 1000 |}.

Definition five_words : list WordGlyphs :=
  repeat (measured demo_face word_AAAA) 5.

(** One write of the compositor: the coverage value on the three
    channels. *)
Definition write_grey (fb : FrameBuffer) (w : Z * Z * BYTE) : FrameBuffer :=
  let '(px, py, p) := w in framebuffer_set_pixel fb px py p p p.

(** A line of two words, and one of a single word. *)
Definition two_word_line : GlyphsLine :=
  {| line_word32 := [word_AAAA; [66; 66; 66]];
     y_position := 5; word_count := 2 |}.

Definition one_word_line : GlyphsLine :=
  {| line_word32 := [word_AAAA]; y_position := 5; word_count := 1 |}.

(** A 32-bpp framebuffer of 4 by 3 pixels with 4 bytes of padding at the
    end of each row, every byte of which holds 9. *)
Definition demo_fb : FrameBuffer := framebuffer_init 4 3 32 20 (fun _ => 9).

(** A face with an embedded bitmap strike: a glyph loaded with
    [FT_LOAD_DEFAULT] comes from the strike and advances by 12 pixels;
    loaded with [FT_LOAD_NO_BITMAP] it comes from the outline and advances
    by 10. *)
Definition bitmap_strike_face : FT_Face :=
  {| face_bbox_yMax := 64 * 20;
     face_size_metrics_height := 64 * 20;
     FT_Get_Char_Index := fun c => c;
     FT_Load_Glyph := fun _ load_flags =>
       {| glyph_metrics :=
            {| metrics_width := 64 * 10;
               metrics_horiBearingY := 0;
               metrics_horiAdvance :=
                 if Z.land load_flags FT_LOAD_NO_BITMAP =? 0
                 then 64 * 12 else 64 * 10 |};
          glyph_bitmap := empty_bitmap |} |}.

(** A face whose glyphs are all one 2-by-2 bitmap stored with a pitch of 3:
    coverage 255 at (0,0) and 128 at (1,1), nothing at the two other
    cells.  The glyph is 2 pixels wide in an advance of 4 and rises 1 pixel
    above the baseline in a bounding box of 2. *)
Definition demo_glyph_face : FT_Face :=
  {| face_bbox_yMax := 128;
     face_size_metrics_height := 1280;
     FT_Get_Char_Index := fun c => c;
     FT_Load_Glyph := fun _ _ =>
       {| glyph_metrics :=
            {| metrics_width := 128;
               metrics_horiBearingY := 64;
               metrics_horiAdvance := 256 |};
          glyph_bitmap :=
            {| bitmap_rows := 2; bitmap_width := 2; bitmap_pitch := 3;
               bitmap_buffer := fun k =>
                 nth (Z.to_nat k) [255; 0; 77; 0; 128; 77] 0 |} |} |}.

(** The same surface on a 24-bpp device: three bytes to a pixel. *)
Definition demo_fb_24bpp : FrameBuffer :=
  framebuffer_init 4 3 24 12 (fun _ => 9).

(** ** Predicates on the output of the line breaker *)

(** The words of a sequence of lines, in line order. *)
Definition words_of_lines (lines : list GlyphsLine) : list UTF32_string :=
  concat (map line_word32 lines).

(** [word_count] is the number of cells of [word32]. *)
Definition count_matches (line : GlyphsLine) : Prop :=
  word_count line = Z.of_nat (length (line_word32 line)).

(** The Y position of the line of index [i] when lines are
    [line_spacing] apart from [init_y]. *)
Definition y_of_index (glyphs_boundary : GlyphsBoundary) (line_spacing : Z)
    (i : nat) : Z :=
  init_y glyphs_boundary + Z.of_nat i * line_spacing.

Definition evenly_spaced (glyphs_boundary : GlyphsBoundary) (line_spacing : Z)
    (lines : list GlyphsLine) : Prop :=
  map y_position lines =
  map (y_of_index glyphs_boundary line_spacing) (seq 0 (length lines)).

(** The counters of the loop agree with the arrays they count. *)
Definition counters_agree (s : LoopState) : Prop :=
  curr_line_word_count s = Z.of_nat (length (words_in_curr_line s))
  /\ line_count s = Z.of_nat (length (glyph_lines s))
  /\ Forall count_matches (glyph_lines s).

(** The lines closed so far are evenly spaced and [curr_y] is the position
    of the next one. *)
Definition y_invariant (glyphs_boundary : GlyphsBoundary) (line_spacing : Z)
    (s : LoopState) : Prop :=
  evenly_spaced glyphs_boundary line_spacing (glyph_lines s)
  /\ curr_y s =
     y_of_index glyphs_boundary line_spacing (length (glyph_lines s)).

(** Every line closed so far passed the height test. *)
Definition closed_lines_fit (glyphs_boundary : GlyphsBoundary)
    (line_spacing : Z) (s : LoopState) : Prop :=
  Forall (fun line => line_fits glyphs_boundary line_spacing (y_position line)
                      = true)
    (glyph_lines s).

(** ** Further code of [framebuffer.c] *)

(** [memset (data, c, n)] for a length [n] that is not negative, whether
    or not the [n] bytes belong to one object. *)
Definition memset (data : Z -> BYTE) (c : BYTE) (n : Z) : Z -> BYTE :=
  fun k => if (0 <=? k) && (k <? n) then c else data k.

(** [framebuffer_clear] *)
Definition framebuffer_clear (self : FrameBuffer) : FrameBuffer :=
  with_fb_data self (memset (fb_data self) 0 (fb_stride self * fb_h self)).

(** [framebuffer_get_width] and [framebuffer_get_height] *)
Definition framebuffer_get_width (self : FrameBuffer) : Z := fb_w self.
Definition framebuffer_get_height (self : FrameBuffer) : Z := fb_h self.

(** ** Measures used in the statements *)

(** The sum of a list of integers. *)
Definition sum_Z (l : list Z) : Z := fold_right Z.add 0 l.

(** The advance of a codepoint as the measuring code loads its glyph, in
    pixels. *)
Definition measured_advance_of (face : FT_Face) (c : Z) : Z :=
  Z.quot
    (metrics_horiAdvance
       (glyph_metrics
          (FT_Load_Glyph face (FT_Get_Char_Index face c) FT_LOAD_NO_BITMAP)))
    64.

(** The face gives a glyph the same advance whether it is loaded for
    measuring ([FT_LOAD_NO_BITMAP]) or for drawing ([FT_LOAD_DEFAULT]). *)
Definition advances_agree (face : FT_Face) : Prop :=
  forall c : Z, advance_of face c = measured_advance_of face c.

(** A word carries the extents that [face_get_string_extent] gives for
    its string, as the words that [main] builds do. *)
Definition measured_by (face : FT_Face) (w : WordGlyphs) : Prop :=
  x_extent w = fst (face_get_string_extent face (word32 w)).

(** What the words of a line add to the pen: each word's extent and one
    space. *)
Definition line_advance (face : FT_Face) (words : list UTF32_string) : Z :=
  sum_Z (map (fun w => fst (face_get_string_extent face w)
                       + fst (face_get_string_extent face utf32_space))
           words).

(** What a list of measured words adds to [curr_x]. *)
Definition words_advance (space_x : Z) (words : list WordGlyphs) : Z :=
  sum_Z (map (fun w => x_extent w + space_x) words).

(** The lines closed so far and the line in progress hold at least one
    word each. *)
Definition lines_nonempty (s : LoopState) : Prop :=
  Forall (fun line => 1 <= word_count line) (glyph_lines s)
  /\ 1 <= curr_line_word_count s.

(** [curr_x] is the left edge plus the advance of the words of the line in
    progress, and every line of two words or more ends at or before
    [width]. *)
Definition wrap_invariant (face : FT_Face) (glyphs_boundary : GlyphsBoundary)
    (s : LoopState) : Prop :=
  curr_x s
  = init_x glyphs_boundary + line_advance face (words_in_curr_line s)
  /\ ((2 <= length (words_in_curr_line s))%nat ->
      curr_x s <= width glyphs_boundary)
  /\ Forall (fun line =>
               (2 <= length (line_word32 line))%nat ->
               init_x glyphs_boundary + line_advance face (line_word32 line)
               <= width glyphs_boundary)
       (glyph_lines s).

(** ** The earlier [utf8_to_utf32] of [main.c] *)

(** The first version of [utf8_to_utf32] in [main.c] pads each byte before
    the terminator to 32 bits. *)
Module Earlier.

(** [strlen]: the number of bytes before the first zero; reading on past
    the end of the buffer when there is none. *)
Fixpoint strlen (word : list UTF8) : outcome Z :=
  match word with
  | [] => OutOfBounds
  | b :: rest => if b =? 0 then Done 0 else l <- strlen rest ;; Done (l + 1)
  end.

(** [utf8_to_utf32]: the cells [ret[0]] to [ret[l - 1]]. *)
Definition utf8_to_utf32 (word : list UTF8) : outcome UTF32_string :=
  l <- strlen word ;;
  Done (for_loop l (fun i ret => ret ++ [nth (Z.to_nat i) word 0]) []).

End Earlier.

(** ** Reference definitions for UTF-8 *)

(** The 2-byte and 3-byte encodings, [110xxxxx 10xxxxxx] and
    [1110xxxx 10xxxxxx 10xxxxxx]. *)
Definition utf8_encode2 (c : Z) : list UTF8 :=
  [ Z.lor 0xC0 (Z.shiftr c 6);
    Z.lor 0x80 (Z.land c 0x3F) ].

Definition utf8_encode3 (c : Z) : list UTF8 :=
  [ Z.lor 0xE0 (Z.shiftr c 12);
    Z.lor 0x80 (Z.land (Z.shiftr c 6) 0x3F);
    Z.lor 0x80 (Z.land c 0x3F) ].

(** The UTF-8 encoding of a scalar value, by its range. *)
Definition utf8_encode (c : Z) : list UTF8 :=
  if c <? 0x80 then [c]
  else if c <? 0x800 then utf8_encode2 c
  else if c <? 0x10000 then utf8_encode3 c
  else utf8_encode4 c.

(** The UTF-8 encoding of a string of scalar values. *)
Definition utf8_encode_string (cs : list Z) : list UTF8 :=
  flat_map utf8_encode cs.

(** The classes of a first byte, by its value. *)
Definition utf8_length_by_range (b : Z) : Z :=
  if b <? 0x80 then 1
  else if b <? 0xC0 then -1
  else if b <? 0xE0 then 2
  else if b <? 0xF0 then 3
  else if b <? 0xF8 then 4
  else -1.

(** The [if] chain of [next_utf8_glyph_length] on the byte read. *)
Definition lead_length (b : Z) : Z :=
  if Z.land b 0x80 =? 0 then 1
  else if Z.land b 0xE0 =? 0xC0 then 2
  else if Z.land b 0xF0 =? 0xE0 then 3
  else if Z.land b 0xF8 =? 0xF0 then 4
  else -1.

(** ** Greedy lines *)

(** A property of each element of a list and its successor. *)
Fixpoint chain {A : Type} (R : A -> A -> Prop) (l : list A) : Prop :=
  match l with
  | a :: (b :: _) as tl => R a b /\ chain R tl
  | _ => True
  end.

(** The first word of [next] did not fit after the words of [line]: from
    [init_x], the words of [line], each with its space, and that word with
    its space end beyond [width]. *)
Definition wrapped_after (face : FT_Face) (glyphs_boundary : GlyphsBoundary)
    (line next : list UTF32_string) : Prop :=
  match next with
  | [] => False
  | w :: _ =>
      init_x glyphs_boundary + line_advance face line
      + (fst (face_get_string_extent face w)
         + fst (face_get_string_extent face utf32_space))
      > width glyphs_boundary
  end.

(** The lines closed so far, and the line in progress after the last of
    them, each start with a word that did not fit on the line before. *)
Definition greedy_invariant (face : FT_Face) (glyphs_boundary : GlyphsBoundary)
    (s : LoopState) : Prop :=
  chain (wrapped_after face glyphs_boundary)
    (map line_word32 (glyph_lines s) ++ [words_in_curr_line s])
  /\ curr_x s
     = init_x glyphs_boundary + line_advance face (words_in_curr_line s)
  /\ words_in_curr_line s <> [].

(** A boundary that admits one line of [demo_face], and four words. *)
Definition low_boundary : GlyphsBoundary :=
  {| init_x := 0; init_y := 0; width := 100; height := 30 |}.

Definition four_words : list WordGlyphs :=
  repeat (measured demo_face word_AAAA) 4.

(** ** The mapped memory *)

(** Every pixel that passes the bounds test has the four bytes that
    [framebuffer_set_pixel] stores for it inside the [fb_data_size] bytes
    that [framebuffer_init] maps. *)
Definition pixels_mapped (self : FrameBuffer) : Prop :=
  forall x y : Z,
    inside self x y = true ->
    0 <= pixel_index self x y
    /\ pixel_index self x y + 3 < fb_data_size self.

(** A 32-bpp surface of 4 by 3 pixels whose rows have no padding. *)
Definition demo_fb_unpadded : FrameBuffer :=
  framebuffer_init 4 3 32 16 (fun _ => 9).

(** ** The heap blocks of [compute_glyph_lines] *)

(** What [malloc (count * sizeof ( *p))] returns, a request of positive
    size being always granted: a block of [count] cells and, for
    [count = 0], what the C library chooses, a null pointer or a block
    without a cell. *)
Inductive allocation := Block (cells : Z) | NullPointer.

Definition malloc_cells (malloc_zero_null : bool) (count : Z) : allocation :=
  if (count =? 0) && malloc_zero_null then NullPointer else Block count.

(** A value, or the first store to a cell that its block does not have. *)
Inductive checked (A : Type) : Type :=
| Within (a : A)
| Outside (index cells : Z).
Arguments Within {A} a.
Arguments Outside {A} index cells.

(** How a call of [compute_glyph_lines] ends: with the array of lines,
    [*out_line_count] being its length; with [NULL], [*out_line_count] not
    written; or at a store to cell [index] of a block of [cells] cells. *)
Inductive call_result :=
| Returns (lines : list GlyphsLine)
| ReturnsNull
| StoresOutside (index cells : Z).

(** Cell [index] belongs to a block of [cells] cells. *)
Definition cell_of_block (index cells : Z) : bool :=
  (0 <=? index) && (index <? cells).

Section CheckedLineBreaker.
Variable space_x : Z.
Variable line_spacing : Z.
Variable glyphs_boundary : GlyphsBoundary.
Variable word_count : Z.

(** The [for] loop with its stores checked: [glyph_lines [line_count]]
    against the [word_count] cells of [glyph_lines], and
    [words_in_curr_line [curr_line_word_count]] against the [cells] cells
    of the block that [words_in_curr_line] points to, which after a line
    is closed is a new block of [remaining_word_count] cells. *)
Fixpoint glyph_lines_loop_checked (words : list WordGlyphs) (cells : Z)
    (s : LoopState) : checked LoopState :=
  match words with
  | [] => Within s
  | curr_word_glyps :: rest =>
      let curr_word_x_extent := x_extent curr_word_glyps in
      let curr_word_x_advance := curr_word_x_extent + space_x in
      if no_more_space line_spacing glyphs_boundary s then Within (overflow s)
      else if is_end_of_line glyphs_boundary s curr_word_x_advance
              && (curr_line_word_count s >? 0)
      then
        if cell_of_block (line_count s) word_count then
          let s1 := close_line line_spacing glyphs_boundary s in
          let remaining_word_count :=
            word_count - displayable_word_count s1 in
          if cell_of_block (curr_line_word_count s1) remaining_word_count then
            glyph_lines_loop_checked rest remaining_word_count
              (place_word curr_word_glyps curr_word_x_advance s1)
          else Outside (curr_line_word_count s1) remaining_word_count
        else Outside (line_count s) word_count
      else
        if cell_of_block (curr_line_word_count s) cells then
          glyph_lines_loop_checked rest cells
            (place_word curr_word_glyps curr_word_x_advance s)
        else Outside (curr_line_word_count s) cells
  end.

(** The code after the loop, the store to [glyph_lines [line_count]]
    checked. *)
Definition write_last_line_checked (s : LoopState) : call_result :=
  if negb (height_is_overflowed s) then
    if cell_of_block (line_count s) word_count
    then Returns (write_last_line s)
    else StoresOutside (line_count s) word_count
  else Returns (write_last_line s).
End CheckedLineBreaker.

(** [compute_glyph_lines] with its two [malloc] calls, their null tests and
    the sizes of the blocks. *)
Definition compute_glyph_lines_checked (malloc_zero_null : bool)
    (face : FT_Face) (glyphs_boundary : GlyphsBoundary)
    (word_glyps : list WordGlyphs) : call_result :=
  let word_count := Z.of_nat (length word_glyps) in
  let space_x := fst (face_get_string_extent face utf32_space) in
  let line_spacing := face_get_line_spacing face in
  match malloc_cells malloc_zero_null word_count with
  | NullPointer => ReturnsNull
  | Block words_cells =>
      match malloc_cells malloc_zero_null word_count with
      | NullPointer => ReturnsNull
      | Block lines_cells =>
          match glyph_lines_loop_checked space_x line_spacing glyphs_boundary
                  lines_cells word_glyps words_cells
                  (loop_entry glyphs_boundary) with
          | Outside index cells => StoresOutside index cells
          | Within s => write_last_line_checked lines_cells s
          end
      end
  end.

(** The counters of the loop against the sizes of the two blocks, [words]
    being the words not yet visited and [cells] the size of the block of
    the line in progress. *)
Definition blocks_invariant (word_count : Z) (words : list WordGlyphs)
    (cells : Z) (s : LoopState) : Prop :=
  0 <= curr_line_word_count s
  /\ 0 <= line_count s <= displayable_word_count s
  /\ displayable_word_count s + curr_line_word_count s
     + Z.of_nat (length words) = word_count
  /\ cells = word_count - displayable_word_count s.

(** * Properties *)

(** ** Loops *)

Lemma for_from_app {S : Type} (n m : nat) (i : Z) (body : Z -> S -> S) (s : S) :
  for_from (n + m) i body s =
  for_from m (i + Z.of_nat n) body (for_from n i body s).
Proof.
  revert i s. induction n as [|n IH]; intros i s.
  - simpl. f_equal. lia.
  - cbn [Nat.add for_from]. rewrite IH. f_equal. lia.
Qed.

(** A summing loop over the cells of an array is the sum of the list. *)
Lemma for_from_nth_sum {A : Type} (g : A -> Z) (d : A) (done todo : list A)
    (acc : Z) :
  for_from (length todo) (Z.of_nat (length done))
    (fun idx acc => acc + g (nth (Z.to_nat idx) (done ++ todo) d)) acc
  = acc + fold_right Z.add 0 (map g todo).
Proof.
  revert done acc. induction todo as [|a todo IH]; intros done acc.
  - simpl. lia.
  - cbn [length for_from map fold_right].
    rewrite Nat2Z.id, app_nth2, Nat.sub_diag by lia. cbn [nth].
    replace (Z.of_nat (length done) + 1)
      with (Z.of_nat (length (done ++ [a])))
      by (rewrite length_app; simpl; lia).
    replace (done ++ a :: todo) with ((done ++ [a]) ++ todo)
      by (rewrite <- app_assoc; reflexivity).
    rewrite IH. lia.
Qed.

Lemma for_from_fold_left {S : Type} (n k : nat) (body : Z -> S -> S) (s : S) :
  for_from n (Z.of_nat k) body s
  = fold_left (fun s i => body i s) (map Z.of_nat (seq k n)) s.
Proof.
  revert k s. induction n as [|n IH]; intros k s; [reflexivity|].
  cbn [for_from seq map fold_left].
  replace (Z.of_nat k + 1) with (Z.of_nat (Datatypes.S k)) by lia.
  apply IH.
Qed.

Lemma for_loop_fold_left {S : Type} (bound : Z) (body : Z -> S -> S) (s : S) :
  for_loop bound body s
  = fold_left (fun s i => body i s) (map Z.of_nat (seq 0 (Z.to_nat bound))) s.
Proof. unfold for_loop. exact (for_from_fold_left _ 0 body s). Qed.

Lemma fold_left_flat_map {A B S : Type} (f : S -> B -> S) (g : A -> list B)
    (l : list A) (s : S) :
  fold_left f (flat_map g l) s
  = fold_left (fun s a => fold_left f (g a) s) l s.
Proof.
  revert s. induction l as [|a l IH]; intros s; [reflexivity|].
  simpl. now rewrite fold_left_app, IH.
Qed.

Lemma fold_left_pointwise {A S : Type} (f g : S -> A -> S) (l : list A) (s : S) :
  (forall s a, f s a = g s a) -> fold_left f l s = fold_left g l s.
Proof.
  intros H. revert s. induction l as [|a l IH]; intros s; [reflexivity|].
  simpl. now rewrite H, IH.
Qed.

(** ** Line breaking *)

Lemma words_of_lines_snoc (lines : list GlyphsLine) (line : GlyphsLine) :
  words_of_lines (lines ++ [line]) = words_of_lines lines ++ line_word32 line.
Proof.
  unfold words_of_lines. rewrite map_app, concat_app. simpl.
  now rewrite app_nil_r.
Qed.

Lemma evenly_spaced_snoc b ls (lines : list GlyphsLine) (line : GlyphsLine) :
  evenly_spaced b ls lines ->
  y_position line = y_of_index b ls (length lines) ->
  evenly_spaced b ls (lines ++ [line]).
Proof.
  unfold evenly_spaced. intros Hl Hy.
  rewrite map_app, length_app. cbn [length map].
  rewrite Nat.add_1_r, seq_S, map_app. cbn [map Nat.add].
  now rewrite Hl, Hy.
Qed.

Lemma evenly_spaced_nth b ls (lines : list GlyphsLine) (i : nat)
    (line : GlyphsLine) :
  evenly_spaced b ls lines ->
  nth_error lines i = Some line ->
  y_position line = y_of_index b ls i.
Proof.
  unfold evenly_spaced. intros Hl Hi.
  assert (Hlt : (i < length lines)%nat)
    by (apply nth_error_Some; congruence).
  apply (map_nth_error y_position) in Hi. rewrite Hl in Hi.
  rewrite (map_nth_error (y_of_index b ls) i (seq 0 (length lines)) (d := i))
    in Hi.
  - now inversion Hi.
  - rewrite nth_error_nth' with (d := O) by (now rewrite length_seq).
    now rewrite seq_nth.
Qed.

Lemma y_of_index_sorted b ls (k n : nat) :
  0 < ls -> StronglySorted Z.lt (map (y_of_index b ls) (seq k n)).
Proof.
  intros Hpos. revert k. induction n as [|n IH]; intros k; simpl.
  - constructor.
  - constructor; [apply IH|].
    apply Forall_forall. intros y Hy.
    apply in_map_iff in Hy. destruct Hy as [j [<- Hj]].
    apply in_seq in Hj. unfold y_of_index. nia.
Qed.

Section LineBreakerFacts.
Variable space_x : Z.
Variable line_spacing : Z.
Variable b : GlyphsBoundary.

Local Abbreviation loop := (glyph_lines_loop space_x line_spacing b).
Local Abbreviation close := (close_line line_spacing b).

(** One turn of the loop, for a word that passes the height test. *)
Lemma loop_step (w : WordGlyphs) (rest : list WordGlyphs) (s : LoopState) :
  no_more_space line_spacing b s = false ->
  loop (w :: rest) s =
  loop rest
    (place_word w (x_extent w + space_x)
       (if is_end_of_line b s (x_extent w + space_x)
           && (curr_line_word_count s >? 0)
        then close s else s)).
Proof. intros H. unfold loop. simpl. now rewrite H. Qed.

Lemma loop_break (w : WordGlyphs) (rest : list WordGlyphs) (s : LoopState) :
  no_more_space line_spacing b s = true ->
  loop (w :: rest) s = overflow s.
Proof. intros H. unfold loop. simpl. now rewrite H. Qed.

(** The words of the output, followed by the words dropped, are the
    words already laid out followed by the words still to visit. *)
Lemma loop_partition (words : list WordGlyphs) (s : LoopState) :
  height_is_overflowed s = false ->
  exists dropped,
    words_of_lines (glyph_lines s) ++ words_in_curr_line s
      ++ map word32 words
    = words_of_lines (write_last_line (loop words s)) ++ dropped
    /\ (dropped = [] \/ height_is_overflowed (loop words s) = true).
Proof.
  revert s. induction words as [|w rest IH]; intros s Hs.
  - exists []. split; [|now left].
    unfold loop, write_last_line. simpl. rewrite Hs. simpl.
    now rewrite words_of_lines_snoc, !app_nil_r.
  - destruct (no_more_space line_spacing b s) eqn:Hh.
    + rewrite loop_break by assumption.
      exists (words_in_curr_line s ++ map word32 (w :: rest)).
      split; [reflexivity | now right].
    + rewrite loop_step by assumption.
      destruct (is_end_of_line b s (x_extent w + space_x)
                && (curr_line_word_count s >? 0)).
      * destruct (IH (place_word w (x_extent w + space_x) (close s)) Hs)
          as [dropped [Heq Hd]].
        exists dropped. split; [|exact Hd].
        rewrite <- Heq. unfold close. cbn [place_word close_line glyph_lines
          words_in_curr_line map].
        rewrite words_of_lines_snoc, <- !app_assoc. reflexivity.
      * destruct (IH (place_word w (x_extent w + space_x) s) Hs)
          as [dropped [Heq Hd]].
        exists dropped. split; [|exact Hd].
        rewrite <- Heq. cbn [place_word glyph_lines words_in_curr_line map].
        rewrite <- !app_assoc. reflexivity.
Qed.

Lemma counters_agree_close (s : LoopState) :
  counters_agree s -> counters_agree (close s).
Proof.
  intros [Hc [Hl Hf]]. unfold close, counters_agree.
  cbn [close_line curr_line_word_count words_in_curr_line line_count
       glyph_lines length].
  repeat split.
  - rewrite length_app. simpl. lia.
  - apply Forall_app. split; [assumption|].
    constructor; [exact Hc | constructor].
Qed.

Lemma counters_agree_place (w : WordGlyphs) (adv : Z) (s : LoopState) :
  counters_agree s -> counters_agree (place_word w adv s).
Proof.
  intros [Hc [Hl Hf]]. unfold counters_agree.
  cbn [place_word curr_line_word_count words_in_curr_line line_count
       glyph_lines].
  repeat split; try assumption.
  rewrite length_app. simpl. lia.
Qed.

Lemma loop_counters_agree (words : list WordGlyphs) (s : LoopState) :
  counters_agree s -> counters_agree (loop words s).
Proof.
  revert s. induction words as [|w rest IH]; intros s Hs.
  - exact Hs.
  - destruct (no_more_space line_spacing b s) eqn:Hh.
    + rewrite loop_break by assumption. exact Hs.
    + rewrite loop_step by assumption. apply IH.
      apply counters_agree_place.
      destruct (_ && _); [now apply counters_agree_close | exact Hs].
Qed.

Lemma write_last_line_counts (s : LoopState) :
  counters_agree s ->
  Forall count_matches (write_last_line s)
  /\ out_line_count_of s = Z.of_nat (length (write_last_line s)).
Proof.
  intros [Hc [Hl Hf]]. unfold write_last_line, out_line_count_of.
  destruct (height_is_overflowed s); simpl.
  - now split.
  - split.
    + apply Forall_app. split; [assumption|].
      constructor; [exact Hc | constructor].
    + rewrite length_app. simpl. lia.
Qed.

Lemma loop_y_invariant (words : list WordGlyphs) (s : LoopState) :
  y_invariant b line_spacing s -> y_invariant b line_spacing (loop words s).
Proof.
  revert s. induction words as [|w rest IH]; intros s Hs.
  - exact Hs.
  - destruct (no_more_space line_spacing b s) eqn:Hh.
    + rewrite loop_break by assumption. exact Hs.
    + rewrite loop_step by assumption. apply IH.
      destruct Hs as [He Hy].
      destruct (_ && _); [|split; assumption].
      split; cbn [place_word close close_line glyph_lines curr_y].
      * now apply evenly_spaced_snoc.
      * unfold close. cbn [close_line glyph_lines curr_y].
        rewrite Hy, length_app. unfold y_of_index. simpl. lia.
Qed.

Lemma write_last_line_evenly_spaced (s : LoopState) :
  y_invariant b line_spacing s -> evenly_spaced b line_spacing (write_last_line s).
Proof.
  intros [He Hy]. unfold write_last_line.
  destruct (height_is_overflowed s); simpl; [assumption|].
  now apply evenly_spaced_snoc.
Qed.
End LineBreakerFacts.

Lemma loop_entry_counters_agree b : counters_agree (loop_entry b).
Proof. repeat split. constructor. Qed.

Lemma loop_entry_y_invariant b ls : y_invariant b ls (loop_entry b).
Proof. split; [reflexivity | unfold y_of_index; simpl; lia]. Qed.

(** [*out_line_count] is the length of the array returned, and the
    [word_count] of every line the length of its [word32]. *)
Lemma out_line_count_length face b word_glyps :
  out_line_count_of (compute_glyph_lines_state face b word_glyps)
  = Z.of_nat (length (compute_glyph_lines face b word_glyps))
  /\ Forall count_matches (compute_glyph_lines face b word_glyps).
Proof.
  destruct (write_last_line_counts
              (compute_glyph_lines_state face b word_glyps)) as [Hf Hl].
  - apply loop_counters_agree, loop_entry_counters_agree.
  - split; assumption.
Qed.

(** On a boundary whose left edge is the origin, the test of the loop is
    the wrap test of the specification. *)
Lemma wrap_test_at_origin b (s : LoopState) (adv : Z) :
  init_x b = 0 ->
  is_end_of_line b s adv && (curr_line_word_count s >? 0)
  = spec_wraps b (curr_x s) adv (curr_line_word_count s).
Proof. intros H. unfold is_end_of_line, spec_wraps. now rewrite H. Qed.

Lemma no_more_space_line_fits b ls (s : LoopState) :
  no_more_space ls b s = negb (line_fits b ls (curr_y s)).
Proof.
  unfold no_more_space, line_fits. rewrite Z.geb_leb.
  now rewrite Z.ltb_antisym, negb_involutive.
Qed.

(** The lines that the loop itself closes satisfy the height bound; only
    the line written after the loop is not tested. *)
Lemma loop_closed_lines_fit b space_x ls (words : list WordGlyphs)
    (s : LoopState) :
  closed_lines_fit b ls s ->
  closed_lines_fit b ls (glyph_lines_loop space_x ls b words s).
Proof.
  revert s. induction words as [|w rest IH]; intros s Hs.
  - exact Hs.
  - destruct (no_more_space ls b s) eqn:Hh.
    + rewrite loop_break by assumption. exact Hs.
    + rewrite loop_step by assumption. apply IH.
      destruct (_ && _); [|exact Hs].
      unfold closed_lines_fit. cbn [place_word close_line glyph_lines].
      apply Forall_app. split; [exact Hs|].
      constructor; [|constructor]. cbn [y_position].
      rewrite no_more_space_line_fits in Hh.
      now apply negb_false_iff in Hh.
Qed.

Lemma only_last_line_untested (face : FT_Face) (b : GlyphsBoundary)
    (word_glyps : list WordGlyphs) :
  exists closed : list GlyphsLine,
    Forall (fun line =>
              line_fits b (face_get_line_spacing face) (y_position line) = true)
      closed
    /\ (compute_glyph_lines face b word_glyps = closed
        \/ exists last, compute_glyph_lines face b word_glyps = closed ++ [last]).
Proof.
  exists (glyph_lines (compute_glyph_lines_state face b word_glyps)). split.
  - apply loop_closed_lines_fit. constructor.
  - unfold compute_glyph_lines, write_last_line.
    fold (compute_glyph_lines_state face b word_glyps).
    destruct (height_is_overflowed _); simpl; [now left | right; eauto].
Qed.

(** C1, evaluated at a boundary with [init_x = 50] and [width = 100].
    After the first 40-pixel word the pen is at 100 with one word on the
    line; the second word advances by 50.  The specification compares
    150 with [originX + width = 150] and keeps the word on the line; the
    loop of [compute_glyph_lines] compares 150 with [width = 100], closes
    the line and returns two lines of one word each. *)
Theorem wrap_test_omits_init_x :
  let face := fixed_face 10 20 in
  let glyphs_boundary :=
    {| init_x := 50; init_y := 0; width := 100; height := 1000 |} in
  let word := measured face word_AAAA in
  let s1 := glyph_lines_loop 10 20 glyphs_boundary [word]
              (loop_entry glyphs_boundary) in
  fst (face_get_string_extent face utf32_space) = 10
  /\ x_extent word = 40
  /\ curr_x s1 = 100
  /\ curr_line_word_count s1 = 1
  /\ spec_wraps glyphs_boundary (curr_x s1) (x_extent word + 10)
       (curr_line_word_count s1) = false
  /\ is_end_of_line glyphs_boundary s1 (x_extent word + 10)
     && (curr_line_word_count s1 >? 0) = true
  /\ map line_word32 (compute_glyph_lines face glyphs_boundary [word; word])
     = [[word_AAAA]; [word_AAAA]].
Proof. vm_compute. repeat split. Qed.

(** C2, evaluated at the boundary of scenario B (height 30, line spacing
    20, [init_y = 0], width 100) with three 40-pixel words.  The third word
    closes the first line and is placed on a second line at Y = 20 without
    a new height test; the loop ends there, so the second line is returned
    although 20 + 20 >= 30.  A fourth word makes the next turn of the loop
    find the overflow and drop that line. *)
Theorem last_word_escapes_height_test :
  let face := fixed_face 10 20 in
  let glyphs_boundary :=
    {| init_x := 0; init_y := 0; width := 100; height := 30 |} in
  let word := measured face word_AAAA in
  face_get_line_spacing face = 20
  /\ compute_glyph_lines face glyphs_boundary [word; word; word]
     = [ {| line_word32 := [word_AAAA; word_AAAA];
            y_position := 0; word_count := 2 |};
         {| line_word32 := [word_AAAA]; y_position := 20; word_count := 1 |} ]
  /\ line_fits glyphs_boundary 20 20 = false
  /\ compute_glyph_lines face glyphs_boundary [word; word; word; word]
     = [ {| line_word32 := [word_AAAA; word_AAAA];
            y_position := 0; word_count := 2 |} ].
Proof. vm_compute. repeat split. Qed.

(** Once the height test has stopped the loop, it holds of the state
    left. *)
Lemma loop_overflow_no_space space_x ls b (words : list WordGlyphs)
    (s : LoopState) :
  (height_is_overflowed s = true -> no_more_space ls b s = true) ->
  height_is_overflowed (glyph_lines_loop space_x ls b words s) = true ->
  no_more_space ls b (glyph_lines_loop space_x ls b words s) = true.
Proof.
  revert s. induction words as [|w rest IH]; intros s Hs; [exact Hs|].
  destruct (no_more_space ls b s) eqn:Hh.
  - rewrite loop_break by assumption. intros _. exact Hh.
  - rewrite loop_step by assumption. apply IH.
    intros Hflag.
    assert (Hold : height_is_overflowed s = true)
      by (destruct (_ && _); exact Hflag).
    specialize (Hs Hold). discriminate.
Qed.

(** When the height test has stopped the loop, the lines returned are the
    closed ones and the line that would come next fails the test. *)
Lemma overflow_next_line_fails (face : FT_Face) (b : GlyphsBoundary)
    (word_glyps : list WordGlyphs) :
  height_is_overflowed (compute_glyph_lines_state face b word_glyps) = true ->
  init_y b
  + Z.of_nat (length (compute_glyph_lines face b word_glyps))
    * face_get_line_spacing face
  + face_get_line_spacing face
  >= init_y b + height b.
Proof.
  intros Hflag.
  set (st := compute_glyph_lines_state face b word_glyps) in *.
  assert (Hlines : compute_glyph_lines face b word_glyps = glyph_lines st).
  { change (compute_glyph_lines face b word_glyps)
      with (write_last_line st).
    unfold write_last_line. now rewrite Hflag. }
  assert (Hfull : no_more_space (face_get_line_spacing face) b st = true)
    by (apply loop_overflow_no_space; [discriminate | exact Hflag]).
  assert (Hy : y_invariant b (face_get_line_spacing face) st)
    by apply loop_y_invariant, loop_entry_y_invariant.
  destruct Hy as [_ Hy].
  unfold no_more_space in Hfull. rewrite Hy in Hfull.
  rewrite Hlines. unfold y_of_index in Hfull.
  apply Z.geb_le in Hfull. lia.
Qed.

(** C3. The words of the lines returned by [compute_glyph_lines], read
    line after line, are an initial segment of the input words: every input
    word is in one line, at one place, or in no line, and the order of the
    input is kept within and across lines.  Words are left out only for
    height: only when the height test has ended the loop, and then the line
    that would come next, at [init_y] plus one line spacing for each line
    returned, fails that test.  The [word_count] of each line is the number
    of its words. *)
Theorem compute_glyph_lines_keeps_a_prefix (face : FT_Face)
    (glyphs_boundary : GlyphsBoundary) (word_glyps : list WordGlyphs) :
  exists dropped : list UTF32_string,
    map word32 word_glyps
    = words_of_lines (compute_glyph_lines face glyphs_boundary word_glyps)
        ++ dropped
    /\ (dropped = []
        \/ (height_is_overflowed
              (compute_glyph_lines_state face glyphs_boundary word_glyps)
            = true
            /\ init_y glyphs_boundary
               + Z.of_nat
                   (length
                      (compute_glyph_lines face glyphs_boundary word_glyps))
                 * face_get_line_spacing face
               + face_get_line_spacing face
               >= init_y glyphs_boundary + height glyphs_boundary))
    /\ Forall count_matches
         (compute_glyph_lines face glyphs_boundary word_glyps).
Proof.
  destruct (loop_partition (fst (face_get_string_extent face utf32_space))
              (face_get_line_spacing face) glyphs_boundary word_glyps
              (loop_entry glyphs_boundary) eq_refl) as [dropped [Heq Hd]].
  exists dropped. repeat split.
  - exact Heq.
  - destruct Hd as [Hd | Hd]; [now left | right].
    split; [exact Hd | now apply overflow_next_line_fails].
  - apply out_line_count_length.
Qed.

(** A boundary 500 pixels high, with lines 20 pixels apart: no word of
    five is left out. *)
Example compute_glyph_lines_keeps_a_prefix_example :
  words_of_lines (compute_glyph_lines demo_face main_boundary five_words)
  = map word32 five_words.
Proof. reflexivity. Qed.

(** C6. The line of index [i] returned by [compute_glyph_lines] has
    Y position [init_y + i * line_spacing]; consecutive lines are exactly
    one line spacing apart; and for a positive line spacing the Y
    positions increase strictly along the output. *)
Theorem compute_glyph_lines_y_positions (face : FT_Face)
    (glyphs_boundary : GlyphsBoundary) (word_glyps : list WordGlyphs) :
  let lines := compute_glyph_lines face glyphs_boundary word_glyps in
  let line_spacing := face_get_line_spacing face in
  (forall (i : nat) (line : GlyphsLine),
      nth_error lines i = Some line ->
      y_position line = init_y glyphs_boundary + Z.of_nat i * line_spacing)
  /\ (forall (i : nat) (line next : GlyphsLine),
         nth_error lines i = Some line ->
         nth_error lines (S i) = Some next ->
         y_position next - y_position line = line_spacing)
  /\ (0 < line_spacing -> StronglySorted Z.lt (map y_position lines)).
Proof.
  intros lines line_spacing.
  assert (He : evenly_spaced glyphs_boundary line_spacing lines).
  { apply write_last_line_evenly_spaced, loop_y_invariant,
      loop_entry_y_invariant. }
  repeat split.
  - intros i line Hi. exact (evenly_spaced_nth _ _ _ _ _ He Hi).
  - intros i line next Hi Hn.
    rewrite (evenly_spaced_nth _ _ _ _ _ He Hi),
            (evenly_spaced_nth _ _ _ _ _ He Hn).
    unfold y_of_index. lia.
  - intros Hpos. rewrite He. now apply y_of_index_sorted.
Qed.

Lemma compute_glyph_lines_y_positions_witness :
  exists line next,
    nth_error (compute_glyph_lines demo_face narrow_boundary five_words) 1
    = Some line
    /\ nth_error (compute_glyph_lines demo_face narrow_boundary five_words) 2
       = Some next
    /\ y_position line = 7 + 1 * 20
    /\ y_position next - y_position line = 20
    /\ StronglySorted Z.lt
         (map y_position
            (compute_glyph_lines demo_face narrow_boundary five_words)).
Proof.
  destruct (compute_glyph_lines_y_positions demo_face narrow_boundary
              five_words) as [Hnth [Hdiff Hsorted]].
  eexists. eexists.
  split; [reflexivity|]. split; [reflexivity|].
  split; [exact (Hnth 1%nat _ eq_refl)|].
  split; [exact (Hdiff 1%nat _ _ eq_refl eq_refl)|].
  apply Hsorted. reflexivity.
Defined.

(** With no word the loop runs no turn, and the statements after it write
    one line without a word at [init_y], when the size of the array that
    receives it is left out of account. *)
Lemma no_words_line_written (face : FT_Face)
    (glyphs_boundary : GlyphsBoundary) :
  compute_glyph_lines face glyphs_boundary []
  = [ {| line_word32 := []; y_position := init_y glyphs_boundary;
         word_count := 0 |} ]
  /\ out_line_count_of (compute_glyph_lines_state face glyphs_boundary []) = 1.
Proof. split; reflexivity. Qed.

(** The boundary of [main] admits a line of [demo_face] at [init_y]. *)
Example main_boundary_admits_a_line :
  line_fits main_boundary (face_get_line_spacing demo_face)
    (init_y main_boundary) = true.
Proof. reflexivity. Qed.


(** ** Centring *)

Lemma center_line_width (face : FT_Face) (line : GlyphsLine)
    (glyphs_boundary : GlyphsBoundary) :
  count_matches line ->
  compute_init_x_to_center_line face line glyphs_boundary
  = init_x glyphs_boundary + Z.quot (width glyphs_boundary) 2
    - Z.quot (spec_line_width face (line_word32 line)) 2.
Proof.
  unfold count_matches, compute_init_x_to_center_line, spec_line_width,
    for_loop.
  intros ->. rewrite Nat2Z.id.
  rewrite (for_from_nth_sum
             (fun w => fst (face_get_string_extent face w)) []
             [] (line_word32 line)).
  match goal with
  | |- _ - Z.quot ?u 2 + _ = _ - Z.quot ?v 2 => replace u with v by lia
  end.
  lia.
Qed.

(** C5. For a line that holds at least one word, the value returned by
    [compute_init_x_to_center_line] is
    [init_x + width / 2 - lineWidth / 2], the divisions truncating, where
    [lineWidth] is the sum of the widths of the words of the line plus one
    space width for each word but one.  For a line of a single word,
    [lineWidth] is the width of that word. *)
Theorem center_line_offset (face : FT_Face) (line : GlyphsLine)
    (glyphs_boundary : GlyphsBoundary) :
  count_matches line ->
  line_word32 line <> [] ->
  compute_init_x_to_center_line face line glyphs_boundary
  = init_x glyphs_boundary + Z.quot (width glyphs_boundary) 2
    - Z.quot
        (fold_right Z.add 0
           (map (fun w => fst (face_get_string_extent face w))
              (line_word32 line))
         + (word_count line - 1)
           * fst (face_get_string_extent face utf32_space))
        2
  /\ (forall w : UTF32_string,
        line_word32 line = [w] ->
        compute_init_x_to_center_line face line glyphs_boundary
        = init_x glyphs_boundary + Z.quot (width glyphs_boundary) 2
          - Z.quot (fst (face_get_string_extent face w)) 2).
Proof.
  intros Hcount _. split.
  - rewrite center_line_width by assumption.
    unfold spec_line_width. now rewrite Hcount.
  - intros w Hw. rewrite center_line_width by assumption.
    unfold spec_line_width. rewrite Hw. cbn [map fold_right length].
    do 2 f_equal. lia.
Qed.

Lemma center_line_offset_witness :
  compute_init_x_to_center_line demo_face two_word_line main_boundary
  = 5 + Z.quot 500 2 - Z.quot (40 + 30 + (2 - 1) * 10) 2
  /\ compute_init_x_to_center_line demo_face one_word_line main_boundary
     = 5 + Z.quot 500 2 - Z.quot 40 2.
Proof.
  split.
  - refine (proj1 (center_line_offset demo_face two_word_line main_boundary
                     eq_refl _)).
    discriminate.
  - refine (proj2 (center_line_offset demo_face one_word_line main_boundary
                     eq_refl _) word_AAAA eq_refl).
    discriminate.
Defined.

(** ** Glyph compositing *)

(** The two nested loops of [face_draw_char_on_fb] make the writes of
    [coverage_writes], in that order, and no other. *)
Lemma draw_char_as_writes (face : FT_Face) (fb : FrameBuffer) (c x y : Z) :
  fst (face_draw_char_on_fb face fb c x y)
  = fold_left write_grey (coverage_writes face c x y) fb.
Proof.
  unfold face_draw_char_on_fb, coverage_writes. cbn [fst].
  rewrite for_loop_fold_left, fold_left_flat_map.
  apply fold_left_pointwise. intros s i.
  rewrite for_loop_fold_left, fold_left_flat_map.
  apply fold_left_pointwise. intros s' j.
  destruct (_ =? 0); reflexivity.
Qed.

Lemma coverage_writes_In (face : FT_Face) (c x y : Z) (px py : Z) (p : BYTE) :
  let bitmap := glyph_bitmap (glyph_of face c) in
  In (px, py, p) (coverage_writes face c x y) <->
  exists i j : Z,
    0 <= i < bitmap_rows bitmap
    /\ 0 <= j < bitmap_width bitmap
    /\ p = bitmap_buffer bitmap (i * bitmap_pitch bitmap + j)
    /\ p <> 0
    /\ px = x + j + x_off_of face c
    /\ py = y + i + y_off_of face c.
Proof.
  intros bitmap. unfold coverage_writes. fold bitmap.
  rewrite in_flat_map. split.
  - intros [i [Hi Hin]].
    apply in_map_iff in Hi. destruct Hi as [k [<- Hk]]. apply in_seq in Hk.
    apply in_flat_map in Hin. destruct Hin as [j [Hj Hin]].
    apply in_map_iff in Hj. destruct Hj as [l [<- Hl]]. apply in_seq in Hl.
    destruct (bitmap_buffer bitmap
                (Z.of_nat k * bitmap_pitch bitmap + Z.of_nat l) =? 0) eqn:Hp;
      [destruct Hin|].
    destruct Hin as [Hin | []]. inversion Hin; subst.
    exists (Z.of_nat k), (Z.of_nat l).
    apply Z.eqb_neq in Hp. repeat split; trivial; lia.
  - intros [i [j [Hi [Hj [Hp [Hnz [Hx Hy]]]]]]].
    exists i. split.
    + apply in_map_iff. exists (Z.to_nat i). split; [lia|].
      apply in_seq. lia.
    + apply in_flat_map. exists j. split.
      * apply in_map_iff. exists (Z.to_nat j). split; [lia|].
        apply in_seq. lia.
      * rewrite <- Hp. apply Z.eqb_neq in Hnz. rewrite Hnz.
        left. now rewrite Hx, Hy.
Qed.

(** C4. [face_draw_char_on_fb] at pen position [(x, y)] calls
    [framebuffer_set_pixel] once for each cell (row [i], column [j]) of the
    glyph bitmap whose coverage byte, read at [i * pitch + j], is not zero,
    at [(x + j + x_off, y + i + y_off)] and with that byte on the three
    channels, and for no other cell; [y_off] is the face's [bbox.yMax]
    minus the glyph's [horiBearingY] and [x_off] is half of the advance
    minus the glyph width, all in pixels; the new pen X is [x] plus the
    advance. *)
Theorem face_draw_char_on_fb_writes (face : FT_Face) (fb : FrameBuffer)
    (c x y : Z) :
  let glyph :=
    FT_Load_Glyph face (FT_Get_Char_Index face c) FT_LOAD_DEFAULT in
  let bitmap := glyph_bitmap glyph in
  let bboxYMax := Z.quot (face_bbox_yMax face) 64 in
  let bearingY := Z.quot (metrics_horiBearingY (glyph_metrics glyph)) 64 in
  let advance := Z.quot (metrics_horiAdvance (glyph_metrics glyph)) 64 in
  let glyphWidth := Z.quot (metrics_width (glyph_metrics glyph)) 64 in
  let yOffset := bboxYMax - bearingY in
  let xOffset := Z.quot (advance - glyphWidth) 2 in
  fst (face_draw_char_on_fb face fb c x y)
  = fold_left (fun fb '(px, py, p) => framebuffer_set_pixel fb px py p p p)
      (coverage_writes face c x y) fb
  /\ (forall (px py : Z) (p : BYTE),
         In (px, py, p) (coverage_writes face c x y) <->
         exists i j : Z,
           0 <= i < bitmap_rows bitmap
           /\ 0 <= j < bitmap_width bitmap
           /\ p = bitmap_buffer bitmap (i * bitmap_pitch bitmap + j)
           /\ p <> 0
           /\ px = x + j + xOffset
           /\ py = y + i + yOffset)
  /\ snd (face_draw_char_on_fb face fb c x y) = x + advance.
Proof.
  intros. repeat split.
  - rewrite draw_char_as_writes. apply fold_left_pointwise.
    intros s [[px py] p]. reflexivity.
  - apply (coverage_writes_In face c x y px py p).
  - apply (coverage_writes_In face c x y px py p).
Qed.

(** The glyph of [demo_glyph_face] drawn at pen position (1, 0): two
    writes, at (2, 1) and (3, 2), and a pen moved to 5. *)
Example face_draw_char_on_fb_demo :
  coverage_writes demo_glyph_face 65 1 0 = [(2, 1, 255); (3, 2, 128)]
  /\ framebuffer_get_pixel
       (fst (face_draw_char_on_fb demo_glyph_face demo_fb 65 1 0)) 2 1
     = (255, 255, 255)
  /\ framebuffer_get_pixel
       (fst (face_draw_char_on_fb demo_glyph_face demo_fb 65 1 0)) 1 1
     = (9, 9, 9)
  /\ snd (face_draw_char_on_fb demo_glyph_face demo_fb 65 1 0) = 5.
Proof. repeat split. Qed.

(** ** The framebuffer *)

Lemma inside_spec (self : FrameBuffer) (x y : Z) :
  inside self x y = true <-> x > 0 /\ x < fb_w self /\ y > 0 /\ y < fb_h self.
Proof.
  unfold inside. rewrite !andb_true_iff, !Z.gtb_gt, !Z.ltb_lt. tauto.
Qed.

(** [framebuffer_init] never leaves a negative [slop]. *)
Lemma framebuffer_init_slop xres yres bits_per_pixel line_length data :
  0 <= fb_slop (framebuffer_init xres yres bits_per_pixel line_length data).
Proof. unfold framebuffer_init. cbn [fb_slop]. lia. Qed.

(** Settles the tests [a =? b] of the goal that linear arithmetic
    decides. *)
Ltac settle_eqb :=
  repeat match goal with
  | |- context [?a =? ?b] =>
      first
        [ replace (a =? b) with true by (symmetry; apply Z.eqb_eq; lia)
        | replace (a =? b) with false by (symmetry; apply Z.eqb_neq; lia) ]
  end.

Lemma store_other (data : Z -> BYTE) (i k : Z) (v : BYTE) :
  k <> i -> store data i v k = data k.
Proof. intros H. unfold store. now rewrite (proj2 (Z.eqb_neq k i) H). Qed.

Lemma store_same (data : Z -> BYTE) (i : Z) (v : BYTE) :
  store data i v i = v.
Proof. unfold store. now rewrite Z.eqb_refl. Qed.

(** The bytes that a call inside the surface leaves alone. *)
Lemma set_pixel_other_bytes (self : FrameBuffer) (x y : Z) (r g b : BYTE)
    (k : Z) :
  k < pixel_index self x y \/ pixel_index self x y + 3 < k ->
  fb_data (framebuffer_set_pixel self x y r g b) k = fb_data self k.
Proof.
  intros Hk. unfold framebuffer_set_pixel.
  destruct (inside self x y); [|reflexivity].
  cbn [with_fb_data fb_data]. rewrite !store_other by lia. reflexivity.
Qed.

Lemma set_pixel_geometry (self : FrameBuffer) (x y : Z) (r g b : BYTE) :
  let self' := framebuffer_set_pixel self x y r g b in
  fb_w self' = fb_w self /\ fb_h self' = fb_h self
  /\ fb_bytes self' = fb_bytes self /\ fb_slop self' = fb_slop self.
Proof.
  unfold framebuffer_set_pixel. destruct (inside self x y); repeat split.
Qed.

(** Row-major cells of at least four bytes: a cell on a later row, or
    later on the same row, starts at least four bytes further. *)
Lemma later_row_apart (w B S x y x' y' : Z) :
  4 <= B -> 0 <= S -> 0 < x < w -> 0 < x' < w -> y' < y ->
  (y' * w + x') * B + y' * S + 3 < (y * w + x) * B + y * S.
Proof.
  intros HB HS Hx Hx' Hy.
  assert (H2 : w <= (y - y') * w) by nia.
  assert (H3 : 0 <= (y - y') * S) by nia.
  assert (H4 : 8 <= ((y - y') * w + x - x') * B) by nia.
  lia.
Qed.

Lemma same_row_apart (w B S x y x' : Z) :
  4 <= B -> x' < x ->
  (y * w + x') * B + y * S + 3 < (y * w + x) * B + y * S.
Proof. intros HB Hx. assert (4 <= (x - x') * B) by nia. lia. Qed.

(** On a surface with room for four bytes in a pixel, two pixels inside
    the surface lie at least four bytes apart. *)
Lemma pixel_index_apart (self : FrameBuffer) (x y x' y' : Z) :
  4 <= fb_bytes self -> 0 <= fb_slop self ->
  inside self x y = true -> inside self x' y' = true ->
  (x', y') <> (x, y) ->
  pixel_index self x' y' + 3 < pixel_index self x y
  \/ pixel_index self x y + 3 < pixel_index self x' y'.
Proof.
  intros Hb Hs Hi Hi' Hne.
  apply inside_spec in Hi. apply inside_spec in Hi'.
  unfold pixel_index.
  assert (Hcases : y' < y \/ y < y' \/ (y' = y /\ (x' < x \/ x < x'))).
  { destruct (Z.eq_dec y' y) as [->|]; [|lia].
    destruct (Z.eq_dec x' x) as [->|]; [now elim Hne | lia]. }
  destruct Hcases as [Hy | [Hy | [-> Hx]]].
  - left. apply later_row_apart; lia.
  - right. apply later_row_apart; lia.
  - destruct Hx; [left | right]; apply same_row_apart; lia.
Qed.

(** [framebuffer_set_pixel] returns the framebuffer as it was unless
    [x > 0], [x < w], [y > 0] and [y < h]: requests outside the surface,
    and those on its first row or first column, are discarded.  When the
    four conditions hold it changes no byte but the four at [index32] to
    [index32 + 3], the addressed pixel then reads as [(r, g, b)], and with
    four bytes or more to a pixel and no negative padding every other pixel
    reads as before.  Offsets are not compared with [fb_data_size] here. *)
Lemma set_pixel_frame_four_byte_pixels (self : FrameBuffer) (x y : Z)
    (r g b : BYTE) :
  let self' := framebuffer_set_pixel self x y r g b in
  (~ (x > 0 /\ x < fb_w self /\ y > 0 /\ y < fb_h self) -> self' = self)
  /\ (x > 0 /\ x < fb_w self /\ y > 0 /\ y < fb_h self ->
      framebuffer_get_pixel self' x y = (r, g, b)
      /\ (forall k : Z,
             k < pixel_index self x y \/ pixel_index self x y + 3 < k ->
             fb_data self' k = fb_data self k)
      /\ (4 <= fb_bytes self -> 0 <= fb_slop self ->
          forall x' y' : Z,
            (x', y') <> (x, y) ->
            framebuffer_get_pixel self' x' y'
            = framebuffer_get_pixel self x' y')).
Proof.
  intros self'. split.
  - intros Hout. unfold self', framebuffer_set_pixel.
    destruct (inside self x y) eqn:Hi; [|reflexivity].
    apply inside_spec in Hi. contradiction.
  - intros Hin. apply inside_spec in Hin.
    assert (Hi' : inside self' x y = true).
    { unfold self', framebuffer_set_pixel. now rewrite Hin. }
    repeat split.
    + unfold framebuffer_get_pixel. rewrite Hi'.
      unfold self', framebuffer_set_pixel, pixel_index. rewrite Hin.
      cbn [with_fb_data fb_data fb_w fb_bytes fb_slop].
      unfold store. settle_eqb. reflexivity.
    + intros k Hk. now apply set_pixel_other_bytes.
    + intros Hb Hs x' y' Hne.
      destruct (set_pixel_geometry self x y r g b) as [Hw [Hh [HB HS]]].
      fold self' in Hw, Hh, HB, HS.
      unfold framebuffer_get_pixel.
      replace (inside self' x' y') with (inside self x' y')
        by (unfold inside; now rewrite Hw, Hh).
      destruct (inside self x' y') eqn:Hi2; [|reflexivity].
      replace (pixel_index self' x' y') with (pixel_index self x' y')
        by (unfold pixel_index; now rewrite Hw, HB, HS).
      pose proof (pixel_index_apart self x y x' y' Hb Hs Hin Hi2 Hne) as Hap.
      unfold self'. rewrite !set_pixel_other_bytes by lia. reflexivity.
Qed.

Example set_pixel_frame_four_byte_pixels_example :
  framebuffer_set_pixel demo_fb 0 1 1 2 3 = demo_fb
  /\ framebuffer_get_pixel (framebuffer_set_pixel demo_fb 1 1 1 2 3) 1 1
     = (1, 2, 3)
  /\ framebuffer_get_pixel (framebuffer_set_pixel demo_fb 1 1 1 2 3) 2 1
     = framebuffer_get_pixel demo_fb 2 1.
Proof.
  split.
  - apply (proj1 (set_pixel_frame_four_byte_pixels demo_fb 0 1 1 2 3)).
    cbn. lia.
  - destruct (proj2 (set_pixel_frame_four_byte_pixels demo_fb 1 1 1 2 3))
      as [Hget [_ Hothers]].
    + cbn. lia.
    + split; [exact Hget|].
      apply Hothers; [cbn; lia | cbn; lia | congruence].
Qed.

(** C9. With three bytes to a pixel, a layout that the [fb_bytes] field of
    [struct _FrameBuffer] admits, [framebuffer_set_pixel] does not change
    the addressed pixel alone.  On a surface of 4 by 3 pixels of 24 bits
    without padding, pixels (1,1) and (2,1) both pass the bounds test and
    lie three bytes apart, all their bytes within the mapped memory; the
    fourth store of a call at (1,1) falls on the first byte of pixel (2,1),
    whose blue component goes from 9 to 0.  At (3,2), the last pixel of the
    surface, the fourth store falls at offset [fb_data_size], one byte past
    the mapped memory.  Requests that fail the bounds test, such as one on
    the first column, leave the framebuffer as it was. *)
Theorem framebuffer_set_pixel_three_byte_pixels :
  fb_bytes demo_fb_24bpp = 3
  /\ fb_slop demo_fb_24bpp = 0
  /\ inside demo_fb_24bpp 1 1 = true
  /\ inside demo_fb_24bpp 2 1 = true
  /\ 0 <= pixel_index demo_fb_24bpp 1 1
  /\ pixel_index demo_fb_24bpp 1 1 + 3 = pixel_index demo_fb_24bpp 2 1
  /\ pixel_index demo_fb_24bpp 2 1 + 2 < fb_data_size demo_fb_24bpp
  /\ framebuffer_get_pixel demo_fb_24bpp 2 1 = (9, 9, 9)
  /\ framebuffer_get_pixel (framebuffer_set_pixel demo_fb_24bpp 1 1 1 2 3) 1 1
     = (1, 2, 3)
  /\ framebuffer_get_pixel (framebuffer_set_pixel demo_fb_24bpp 1 1 1 2 3) 2 1
     = (9, 9, 0)
  /\ inside demo_fb_24bpp 3 2 = true
  /\ pixel_index demo_fb_24bpp 3 2 + 3 = fb_data_size demo_fb_24bpp
  /\ fb_data (framebuffer_set_pixel demo_fb_24bpp 3 2 1 2 3)
       (fb_data_size demo_fb_24bpp) = 0
  /\ framebuffer_set_pixel demo_fb_24bpp 0 1 1 2 3 = demo_fb_24bpp.
Proof. repeat split; cbn; lia. Qed.

(** ** UTF-8 decoding *)

Lemma land_high_low (hi lo n : Z) :
  0 <= n -> 0 <= lo < 2 ^ n -> Z.land (hi * 2 ^ n) lo = 0.
Proof.
  intros Hn Hlo. apply Z.bits_inj'. intros k Hk.
  rewrite Z.land_spec, Z.bits_0.
  destruct (Z.lt_ge_cases k n) as [Hlt | Hge].
  - now rewrite Z.mul_pow2_bits_low by lia.
  - rewrite <- (Z.mod_small lo (2 ^ n)) by lia.
    rewrite Z.mod_pow2_bits_high by lia. apply andb_false_r.
Qed.

(** An [|] of two values that share no bit is their sum. *)
Lemma lor_high_low (x lo n : Z) :
  0 <= n -> x mod 2 ^ n = 0 -> 0 <= lo < 2 ^ n -> Z.lor x lo = x + lo.
Proof.
  intros Hn Hx Hlo.
  assert (Hpow : 0 < 2 ^ n) by (apply Z.pow_pos_nonneg; lia).
  pose proof (Z.add_lor_land x lo) as Hadd.
  replace x with (x / 2 ^ n * 2 ^ n) in Hadd at 2
    by (pose proof (Z.div_mod x (2 ^ n)); lia).
  rewrite land_high_low in Hadd by assumption. lia.
Qed.

Lemma land_low_bits (x n : Z) :
  0 <= n -> Z.land x (Z.ones n) = x mod 2 ^ n.
Proof. intros Hn. now apply Z.land_ones. Qed.

(** Four bit fields that do not overlap, joined by [|]. *)
Lemma lor_four_fields (a b d e : Z) :
  0 <= b < 64 -> 0 <= d < 64 -> 0 <= e < 64 ->
  Z.lor (Z.lor (Z.lor (a * 262144) (b * 4096)) (d * 64)) e
  = a * 262144 + b * 4096 + d * 64 + e.
Proof.
  intros Hb Hd He.
  rewrite (lor_high_low (a * 262144) (b * 4096) 18)
    by (try lia; change (2 ^ 18) with 262144;
        Z.div_mod_to_equations; lia).
  rewrite (lor_high_low (a * 262144 + b * 4096) (d * 64) 12)
    by (try lia; change (2 ^ 12) with 4096;
        Z.div_mod_to_equations; lia).
  rewrite (lor_high_low (a * 262144 + b * 4096 + d * 64) e 6)
    by (try lia; change (2 ^ 6) with 64;
        Z.div_mod_to_equations; lia).
  reflexivity.
Qed.

(** The value that the 4-byte branch of the decoder assembles from the
    four bytes of [utf8_encode4 c]. *)
Lemma four_byte_value (c : Z) :
  0x10000 <= c <= 0x10FFFF ->
  Z.lor
    (Z.lor
       (Z.lor
          (Z.shiftl (Z.land (Z.lor 0xF0 (Z.shiftr c 18)) 0x07) 18)
          (Z.shiftl
             (Z.land (Z.lor 0x80 (Z.land (Z.shiftr c 12) 0x3F)) 0x3F) 12))
       (Z.shiftl (Z.land (Z.lor 0x80 (Z.land (Z.shiftr c 6) 0x3F)) 0x3F) 6))
    (Z.land (Z.lor 0x80 (Z.land c 0x3F)) 0x3F)
  = c.
Proof.
  intros Hc.
  change 0x3F with (Z.ones 6). change 0x07 with (Z.ones 3).
  rewrite !Z.shiftr_div_pow2 by lia.
  rewrite !(land_low_bits _ 6) by lia.
  rewrite (lor_high_low 0xF0 (c / 2 ^ 18) 3)
    by (try reflexivity; change (2 ^ 3) with 8; change (2 ^ 18) with 262144;
        lia || (split; [apply Z.div_pos; lia | apply Z.div_lt_upper_bound; lia])).
  rewrite !(lor_high_low 0x80 _ 6)
    by (try reflexivity; lia || (apply Z.mod_pos_bound; reflexivity)).
  rewrite (land_low_bits _ 3) by lia.
  rewrite !Z.shiftl_mul_pow2 by lia.
  change (2 ^ 18) with 262144. change (2 ^ 12) with 4096.
  change (2 ^ 6) with 64. change (2 ^ 3) with 8.
  rewrite lor_four_fields by (apply Z.mod_pos_bound; reflexivity).
  Z.div_mod_to_equations. lia.
Qed.

(** The lead byte of [utf8_encode4 c] announces four bytes. *)
Lemma four_byte_lead (c : Z) :
  0x10000 <= c <= 0x10FFFF ->
  exists a : Z, 0 <= a <= 4 /\ Z.lor 0xF0 (Z.shiftr c 18) = 0xF0 + a.
Proof.
  intros Hc. exists (c / 2 ^ 18).
  rewrite Z.shiftr_div_pow2 by lia.
  assert (Ha : 0 <= c / 2 ^ 18 <= 4).
  { change (2 ^ 18) with 262144. split.
    - apply Z.div_pos; lia.
    - apply Z.lt_succ_r, Z.div_lt_upper_bound; lia. }
  split; [exact Ha|].
  apply (lor_high_low 0xF0 _ 3); [lia | reflexivity | ].
  change (2 ^ 3) with 8. lia.
Qed.

Section DecoderFacts.
Variable malloc_content : Z -> UTF32.

(** A well-formed 4-byte sequence followed by the terminator decodes,
    with two turns of each loop, to the single codepoint assembled from
    the payload bits of its four bytes. *)
Lemma decode_four_bytes (b0 b1 b2 b3 : UTF8) (fuel : nat) :
  (exists a : Z, 0 <= a <= 7 /\ b0 = 0xF0 + a) ->
  utf8_to_utf32 malloc_content [b0; b1; b2; b3; 0] (S (S fuel))
  = Done
      [ Z.lor
          (Z.lor
             (Z.lor (Z.shiftl (Z.land b0 0x07) 18)
                (Z.shiftl (Z.land b1 0x3F) 12))
             (Z.shiftl (Z.land b2 0x3F) 6))
          (Z.land b3 0x3F) ].
Proof.
  intros [a [Ha ->]].
  assert (Hcases : a = 0 \/ a = 1 \/ a = 2 \/ a = 3 \/ a = 4 \/ a = 5
                   \/ a = 6 \/ a = 7) by lia.
  repeat (destruct Hcases as [-> | Hcases]); try subst a; reflexivity.
Qed.

(** A first byte that is no lead byte sends the pointer before the
    buffer, where the next test of the loop reads. *)
Lemma invalid_first_byte_reads_before_buffer (b : UTF8) (rest : list UTF8)
    (fuel : nat) :
  b <> 0 ->
  next_utf8_glyph_length (b :: rest) 0 = Done (-1) ->
  utf8_to_utf32 malloc_content (b :: rest) (S (S fuel)) = OutOfBounds.
Proof.
  intros Hb Hlen. unfold utf8_to_utf32.
  cbn [count_glyphs]. rewrite Hlen.
  unfold load8 at 1. cbn [length Nat.add]. 
  replace (0 <=? 0) with true by reflexivity.
  replace (0 <? Z.of_nat (S (length rest))) with true
    by (symmetry; apply Z.ltb_lt; lia).
  cbn [andb Z.to_nat nth bind].
  rewrite (proj2 (Z.eqb_neq b 0) Hb).
  reflexivity.
Qed.

(** After a valid byte, a byte that is no lead byte sends the pointer
    back to the byte before it, from which the loop comes to it again:
    the counting loop has no end. *)
Lemma invalid_second_byte_loops (fuel : nat) (word_length : Z) :
  count_glyphs [0x41; 0x80; 0] fuel 0 word_length = OutOfFuel
  /\ count_glyphs [0x41; 0x80; 0] fuel 1 word_length = OutOfFuel.
Proof.
  revert word_length. induction fuel as [|fuel IH]; intros word_length.
  - split; reflexivity.
  - split.
    + change (count_glyphs [0x41; 0x80; 0] (S fuel) 0 word_length)
        with (count_glyphs [0x41; 0x80; 0] fuel 1 (word_length + 1)).
      apply IH.
    + change (count_glyphs [0x41; 0x80; 0] (S fuel) 1 word_length)
        with (count_glyphs [0x41; 0x80; 0] fuel 0 (word_length + 1)).
      apply IH.
Qed.
End DecoderFacts.

(** [utf8_encode4] on the ends of its range and on U+1F600. *)
Example utf8_encode4_known :
  utf8_encode4 0x10000 = [0xF0; 0x90; 0x80; 0x80]
  /\ utf8_encode4 0x1F600 = [0xF0; 0x9F; 0x98; 0x80]
  /\ utf8_encode4 0x10FFFF = [0xF4; 0x8F; 0xBF; 0xBF].
Proof. repeat split. Qed.

(** C7, evaluated.  For the byte [0x80], which is no lead byte,
    [next_utf8_glyph_length] returns -1 and [utf8_to_utf32] adds it to the
    pointer.  On the string [0x80 0x00] the next read is one byte before
    the buffer, whatever the fuel; on [0x41 0x80 0x00] the pointer goes
    from the second byte back to the first and forth again, and the
    counting loop never ends.  No codepoint is emitted for the byte and
    the pointer does not advance by one. *)
Theorem invalid_leading_byte_unhandled (malloc_content : Z -> UTF32) :
  next_utf8_glyph_length [0x80; 0] 0 = Done (-1)
  /\ (forall fuel : nat,
         utf8_to_utf32 malloc_content [0x80; 0] (S (S fuel)) = OutOfBounds)
  /\ (forall fuel : nat,
         utf8_to_utf32 malloc_content [0x41; 0x80; 0] fuel = OutOfFuel).
Proof.
  split; [reflexivity|]. split.
  - intros fuel. apply invalid_first_byte_reads_before_buffer;
      [discriminate | reflexivity].
  - intros fuel. unfold utf8_to_utf32.
    now rewrite (proj1 (invalid_second_byte_loops fuel 0)).
Qed.

(** C8. For a scalar value [c] from U+10000 to U+10FFFF, [utf8_to_utf32]
    applied to the four bytes of the UTF-8 encoding of [c] and the
    terminator ends, given two turns or more for each loop, and returns
    the one-codepoint string [c]. *)
Theorem utf8_to_utf32_four_byte_roundtrip (malloc_content : Z -> UTF32)
    (c : Z) (fuel : nat) :
  0x10000 <= c <= 0x10FFFF ->
  utf8_to_utf32 malloc_content (utf8_encode4 c ++ [0]) (S (S fuel))
  = Done [c].
Proof.
  intros Hc. unfold utf8_encode4. cbn [app].
  rewrite decode_four_bytes.
  - now rewrite four_byte_value.
  - destruct (four_byte_lead c Hc) as [a [Ha Heq]].
    exists a. split; [lia | exact Heq].
Qed.

Lemma utf8_to_utf32_four_byte_roundtrip_witness :
  utf8_to_utf32 (fun _ => 0) (utf8_encode4 0x1F600 ++ [0]) 2
  = Done [0x1F600].
Proof.
  apply (utf8_to_utf32_four_byte_roundtrip (fun _ => 0) 0x1F600 0). lia.
Defined.

(** * Further properties of the code *)

(** ** Line breaking: shape of the output *)

Lemma sum_Z_app (l1 l2 : list Z) : sum_Z (l1 ++ l2) = sum_Z l1 + sum_Z l2.
Proof.
  unfold sum_Z. induction l1 as [|a l1 IH]; simpl; [reflexivity | lia].
Qed.

Lemma line_advance_snoc (face : FT_Face) (words : list UTF32_string)
    (w : UTF32_string) :
  line_advance face (words ++ [w])
  = line_advance face words
    + (fst (face_get_string_extent face w)
       + fst (face_get_string_extent face utf32_space)).
Proof.
  unfold line_advance. rewrite map_app, sum_Z_app. unfold sum_Z. simpl. lia.
Qed.

Lemma loop_lines_nonempty space_x ls b (words : list WordGlyphs)
    (s : LoopState) :
  lines_nonempty s -> lines_nonempty (glyph_lines_loop space_x ls b words s).
Proof.
  revert s. induction words as [|w rest IH]; intros s Hs; [exact Hs|].
  destruct (no_more_space ls b s) eqn:Hh.
  - rewrite loop_break by assumption. exact Hs.
  - rewrite loop_step by assumption. apply IH.
    destruct Hs as [Hl Hc].
    destruct (_ && _); split; cbn [place_word close_line glyph_lines
      curr_line_word_count]; try lia; try assumption.
    apply Forall_app. split; [assumption|].
    constructor; [exact Hc | constructor].
Qed.

(** From the entry of the loop, a first word that passes the height test
    starts the first line. *)
Lemma first_word_placed space_x ls b (w : WordGlyphs) :
  lines_nonempty
    (place_word w (x_extent w + space_x)
       (if is_end_of_line b (loop_entry b) (x_extent w + space_x)
           && (curr_line_word_count (loop_entry b) >? 0)
        then close_line ls b (loop_entry b) else loop_entry b)).
Proof.
  cbn [loop_entry curr_line_word_count]. rewrite andb_false_r.
  split; cbn; [constructor | lia].
Qed.

Lemma write_last_line_nonempty (s : LoopState) :
  lines_nonempty s ->
  Forall (fun line => 1 <= word_count line) (write_last_line s).
Proof.
  intros [Hl Hc]. unfold write_last_line.
  destruct (height_is_overflowed s); simpl; [assumption|].
  apply Forall_app. split; [assumption|].
  constructor; [exact Hc | constructor].
Qed.

Lemma lines_of_nonempty_input (face : FT_Face) (b : GlyphsBoundary)
    (word_glyps : list WordGlyphs) :
  word_glyps <> [] ->
  Forall (fun line => 1 <= word_count line)
    (compute_glyph_lines face b word_glyps).
Proof.
  intros Hne. destruct word_glyps as [|w rest]; [now elim Hne|].
  unfold compute_glyph_lines.
  destruct (no_more_space (face_get_line_spacing face) b (loop_entry b))
    eqn:Hh.
  - rewrite loop_break by assumption. constructor.
  - rewrite loop_step by assumption.
    apply write_last_line_nonempty, loop_lines_nonempty, first_word_placed.
Qed.

(** X1. When [compute_glyph_lines] is given at least one word, every line
    it returns holds at least one word: its [word_count] is 1 or more and
    its array of words is not empty. *)
Theorem compute_glyph_lines_no_empty_line (face : FT_Face)
    (glyphs_boundary : GlyphsBoundary) (word_glyps : list WordGlyphs) :
  word_glyps <> [] ->
  Forall (fun line => 1 <= word_count line /\ line_word32 line <> [])
    (compute_glyph_lines face glyphs_boundary word_glyps).
Proof.
  intros Hne.
  pose proof (lines_of_nonempty_input face glyphs_boundary word_glyps Hne)
    as Hpos.
  pose proof (proj2 (out_line_count_length face glyphs_boundary word_glyps))
    as Hcount.
  rewrite Forall_forall in *. intros line Hin.
  specialize (Hpos line Hin). specialize (Hcount line Hin).
  split; [exact Hpos|]. unfold count_matches in Hcount.
  intros Hnil. rewrite Hnil in Hcount. simpl in Hcount. lia.
Qed.

Lemma compute_glyph_lines_no_empty_line_witness :
  Forall (fun line => 1 <= word_count line /\ line_word32 line <> [])
    (compute_glyph_lines demo_face narrow_boundary five_words).
Proof.
  apply (compute_glyph_lines_no_empty_line demo_face narrow_boundary
           five_words).
  discriminate.
Defined.

Lemma length_words_of_lines (lines : list GlyphsLine) :
  Forall (fun line => 1 <= word_count line) lines ->
  Forall count_matches lines ->
  (length lines <= length (words_of_lines lines))%nat.
Proof.
  unfold words_of_lines. induction lines as [|l lines IH]; intros Hp Hc.
  - simpl. lia.
  - inversion Hp as [|? ? Hp1 Hp2]; subst.
    inversion Hc as [|? ? Hc1 Hc2]; subst.
    simpl. rewrite length_app. specialize (IH Hp2 Hc2).
    unfold count_matches in Hc1. lia.
Qed.

(** X2. When [compute_glyph_lines] is given at least one word, the number
    of lines it reports in [*out_line_count] is at most the number of
    words: the entries it writes to [glyph_lines], an array allocated for
    [word_count] lines, are all inside that array. *)
Theorem compute_glyph_lines_line_count_bound (face : FT_Face)
    (glyphs_boundary : GlyphsBoundary) (word_glyps : list WordGlyphs) :
  word_glyps <> [] ->
  0 <= out_line_count_of
         (compute_glyph_lines_state face glyphs_boundary word_glyps)
    <= Z.of_nat (length word_glyps)
  /\ (length (compute_glyph_lines face glyphs_boundary word_glyps)
      <= length word_glyps)%nat.
Proof.
  intros Hne.
  destruct (out_line_count_length face glyphs_boundary word_glyps)
    as [Hlen Hcount].
  pose proof (lines_of_nonempty_input face glyphs_boundary word_glyps Hne)
    as Hpos.
  pose proof (length_words_of_lines _ Hpos Hcount) as Hle.
  destruct (loop_partition (fst (face_get_string_extent face utf32_space))
              (face_get_line_spacing face) glyphs_boundary word_glyps
              (loop_entry glyphs_boundary) eq_refl) as [dropped [Heq _]].
  apply (f_equal (@length _)) in Heq.
  cbn [loop_entry glyph_lines words_in_curr_line words_of_lines map concat
       app] in Heq.
  rewrite length_map, length_app in Heq.
  fold (compute_glyph_lines face glyphs_boundary word_glyps) in Heq.
  rewrite Hlen. lia.
Qed.

Lemma compute_glyph_lines_line_count_bound_witness :
  0 <= out_line_count_of
         (compute_glyph_lines_state demo_face narrow_boundary five_words)
    <= 5
  /\ (length (compute_glyph_lines demo_face narrow_boundary five_words)
      <= 5)%nat.
Proof.
  apply (compute_glyph_lines_line_count_bound demo_face narrow_boundary
           five_words).
  discriminate.
Defined.

(** ** Line breaking: widths and heights *)

Lemma loop_wrap_invariant (face : FT_Face) ls b (words : list WordGlyphs)
    (s : LoopState) :
  Forall (measured_by face) words ->
  counters_agree s ->
  wrap_invariant face b s ->
  wrap_invariant face b
    (glyph_lines_loop (fst (face_get_string_extent face utf32_space)) ls b
       words s).
Proof.
  set (space_x := fst (face_get_string_extent face utf32_space)).
  revert s. induction words as [|w rest IH]; intros s Hm Hc Hs; [exact Hs|].
  inversion Hm as [|? ? Hw Hrest]; subst.
  destruct (no_more_space ls b s) eqn:Hh.
  - rewrite loop_break by assumption. exact Hs.
  - rewrite loop_step by assumption.
    destruct Hs as [Hx [Hfit Hlines]].
    destruct (is_end_of_line b s (x_extent w + space_x)) eqn:Heol;
      destruct (curr_line_word_count s >? 0) eqn:Hpos; cbn [andb].
    + (* the line is closed and the word starts the next one *)
      apply IH; [assumption | |].
      * apply counters_agree_place, counters_agree_close, Hc.
      * repeat split; cbn [place_word close_line curr_x words_in_curr_line
          glyph_lines app length].
        -- unfold line_advance, sum_Z. cbn [map fold_right].
           fold space_x. rewrite Hw. lia.
        -- lia.
        -- apply Forall_app. split; [assumption|].
           constructor; [|constructor]. cbn [line_word32].
           intros H2. rewrite <- Hx. now apply Hfit.
    + (* the line in progress is empty: the word is placed whatever its
         width *)
      apply IH; [assumption | now apply counters_agree_place |].
      destruct Hc as [Hcount _].
      assert (Hnil : words_in_curr_line s = []).
      { rewrite Z.gtb_ltb in Hpos. apply Z.ltb_ge in Hpos.
        destruct (words_in_curr_line s); [reflexivity|].
        simpl in Hcount. lia. }
      repeat split; cbn [place_word curr_x words_in_curr_line glyph_lines].
      * rewrite line_advance_snoc, Hx. fold space_x. rewrite Hw. lia.
      * rewrite Hnil. simpl. lia.
      * assumption.
    + (* the word fits *)
      apply IH; [assumption | now apply counters_agree_place |].
      unfold is_end_of_line in Heol.
      rewrite Z.gtb_ltb in Heol. apply Z.ltb_ge in Heol.
      repeat split; cbn [place_word curr_x words_in_curr_line glyph_lines].
      * rewrite line_advance_snoc, Hx. fold space_x. rewrite Hw. lia.
      * intros _. exact Heol.
      * assumption.
    + apply IH; [assumption | now apply counters_agree_place |].
      unfold is_end_of_line in Heol.
      rewrite Z.gtb_ltb in Heol. apply Z.ltb_ge in Heol.
      repeat split; cbn [place_word curr_x words_in_curr_line glyph_lines].
      * rewrite line_advance_snoc, Hx. fold space_x. rewrite Hw. lia.
      * intros _. exact Heol.
      * assumption.
Qed.

(** X3. For words that carry their measured extents, every line of two
    words or more that [compute_glyph_lines] returns ends, trailing space
    included, at or before the X coordinate [width]: [init_x] plus the
    extents of its words plus one space for each word is at most
    [glyphs_boundary.width].  Only a line of a single word can pass it. *)
Theorem compute_glyph_lines_wrap_bound (face : FT_Face)
    (glyphs_boundary : GlyphsBoundary) (word_glyps : list WordGlyphs) :
  Forall (measured_by face) word_glyps ->
  Forall (fun line =>
            (2 <= length (line_word32 line))%nat ->
            init_x glyphs_boundary + line_advance face (line_word32 line)
            <= width glyphs_boundary)
    (compute_glyph_lines face glyphs_boundary word_glyps).
Proof.
  intros Hm.
  pose proof (loop_wrap_invariant face (face_get_line_spacing face)
                glyphs_boundary word_glyps (loop_entry glyphs_boundary) Hm
                (loop_entry_counters_agree glyphs_boundary)) as Hinv.
  destruct Hinv as [Hx [Hfit Hlines]].
  { repeat split; cbn; try lia. constructor. }
  unfold compute_glyph_lines, write_last_line.
  destruct (height_is_overflowed _); cbn [negb]; [exact Hlines|].
  apply Forall_app. split; [exact Hlines|].
  constructor; [|constructor]. cbn [line_word32].
  intros H2. rewrite <- Hx. now apply Hfit.
Qed.

Lemma compute_glyph_lines_wrap_bound_witness :
  Forall (fun line =>
            (2 <= length (line_word32 line))%nat ->
            init_x main_boundary + line_advance demo_face (line_word32 line)
            <= width main_boundary)
    (compute_glyph_lines demo_face main_boundary five_words).
Proof.
  apply (compute_glyph_lines_wrap_bound demo_face main_boundary five_words).
  repeat constructor.
Defined.

(** While the lines started so far and the words still to come are
    fewer than the lines that the height admits, the height test never
    stops the loop. *)
Lemma loop_never_overflows space_x ls b (n : nat) (words : list WordGlyphs)
    (s : LoopState) :
  (forall k : nat, (k < n)%nat -> line_fits b ls (y_of_index b ls k) = true) ->
  height_is_overflowed s = false ->
  y_invariant b ls s ->
  (length (glyph_lines s) + length words <= n)%nat ->
  height_is_overflowed (glyph_lines_loop space_x ls b words s) = false.
Proof.
  intros Hfits. revert s.
  induction words as [|w rest IH]; intros s Hs Hy Hn; [exact Hs|].
  assert (Hh : no_more_space ls b s = false).
  { rewrite no_more_space_line_fits. destruct Hy as [_ Hy]. rewrite Hy.
    rewrite Hfits; [reflexivity | simpl in Hn; lia]. }
  rewrite loop_step by assumption.
  destruct (_ && _).
  - apply IH.
    + exact Hs.
    + destruct Hy as [He Hy].
      split; cbn [place_word close_line glyph_lines curr_y].
      * now apply evenly_spaced_snoc.
      * rewrite Hy, length_app. unfold y_of_index. simpl. lia.
    + cbn [place_word close_line glyph_lines]. rewrite length_app.
      simpl in *. lia.
  - apply IH; [exact Hs | exact Hy | simpl in *; lia].
Qed.

(** X4. If the line spacing is not negative and the boundary is higher
    than as many line spacings as there are words, [compute_glyph_lines]
    drops no word: the words of its lines, in order, are all the input
    words, and [height_is_overflowed] stays false. *)
Theorem compute_glyph_lines_keeps_all_words (face : FT_Face)
    (glyphs_boundary : GlyphsBoundary) (word_glyps : list WordGlyphs) :
  0 <= face_get_line_spacing face ->
  Z.of_nat (length word_glyps) * face_get_line_spacing face
  < height glyphs_boundary ->
  words_of_lines (compute_glyph_lines face glyphs_boundary word_glyps)
  = map word32 word_glyps
  /\ height_is_overflowed
       (compute_glyph_lines_state face glyphs_boundary word_glyps) = false.
Proof.
  intros Hls Hh.
  assert (Hflag : height_is_overflowed
            (compute_glyph_lines_state face glyphs_boundary word_glyps)
          = false).
  { apply (loop_never_overflows _ _ _ (length word_glyps)).
    - intros k Hk. unfold line_fits, y_of_index. apply Z.ltb_lt. nia.
    - reflexivity.
    - apply loop_entry_y_invariant.
    - simpl. lia. }
  split; [|exact Hflag].
  destruct (loop_partition (fst (face_get_string_extent face utf32_space))
              (face_get_line_spacing face) glyphs_boundary word_glyps
              (loop_entry glyphs_boundary) eq_refl) as [dropped [Heq Hd]].
  fold (compute_glyph_lines_state face glyphs_boundary word_glyps) in Hd.
  destruct Hd as [-> | Hd]; [|congruence].
  rewrite app_nil_r in Heq. symmetry. exact Heq.
Qed.

Lemma compute_glyph_lines_keeps_all_words_witness :
  words_of_lines (compute_glyph_lines demo_face main_boundary five_words)
  = map word32 five_words
  /\ height_is_overflowed
       (compute_glyph_lines_state demo_face main_boundary five_words) = false.
Proof.
  apply (compute_glyph_lines_keeps_all_words demo_face main_boundary
           five_words); vm_compute; congruence.
Defined.

(** ** The stores of [compute_glyph_lines] and the sizes of its blocks *)

Lemma cell_of_block_true (index cells : Z) :
  0 <= index < cells -> cell_of_block index cells = true.
Proof.
  intros H. unfold cell_of_block. apply andb_true_intro.
  split; [apply Z.leb_le | apply Z.ltb_lt]; lia.
Qed.

(** From a state whose counters agree with the sizes of the blocks, every
    store of the loop is inside its block, and so is the store after the
    loop when the loop has placed a word. *)
Lemma loop_checked_agrees space_x ls b (word_count : Z)
    (words : list WordGlyphs) (cells : Z) (s : LoopState) :
  blocks_invariant word_count words cells s ->
  (words = [] -> 1 <= curr_line_word_count s) ->
  glyph_lines_loop_checked space_x ls b word_count words cells s
  = Within (glyph_lines_loop space_x ls b words s)
  /\ (height_is_overflowed (glyph_lines_loop space_x ls b words s) = false ->
      0 <= line_count (glyph_lines_loop space_x ls b words s) < word_count).
Proof.
  revert cells s. induction words as [|w rest IH]; intros cells s Hinv Hne.
  - destruct Hinv as (H1 & H2 & H3 & H4). specialize (Hne eq_refl).
    cbn [length] in H3. split; [reflexivity|].
    intros _. cbn [glyph_lines_loop]. lia.
  - destruct Hinv as (H1 & H2 & H3 & H4).
    cbn [length] in H3. rewrite Nat2Z.inj_succ in H3.
    cbn [glyph_lines_loop_checked glyph_lines_loop].
    destruct (no_more_space ls b s).
    + split; [reflexivity|]. cbn [overflow height_is_overflowed]. discriminate.
    + destruct (is_end_of_line b s (x_extent w + space_x)
                && (curr_line_word_count s >? 0)) eqn:Hclose.
      * rewrite cell_of_block_true by lia.
        cbn [close_line displayable_word_count curr_line_word_count].
        rewrite cell_of_block_true by lia.
        apply IH.
        -- unfold blocks_invariant.
           cbn [place_word close_line displayable_word_count
                curr_line_word_count line_count].
           apply andb_prop in Hclose. destruct Hclose as [_ Hpos].
           rewrite Z.gtb_ltb in Hpos. apply Z.ltb_lt in Hpos. lia.
        -- intros _. cbn [place_word close_line curr_line_word_count]. lia.
      * rewrite cell_of_block_true by lia.
        apply IH.
        -- unfold blocks_invariant.
           cbn [place_word displayable_word_count curr_line_word_count
                line_count]. lia.
        -- intros _. cbn [place_word curr_line_word_count]. lia.
Qed.

(** For one word or more, every store of [compute_glyph_lines] is inside
    its block, whatever [malloc (0)] gives, and the call returns the lines
    of [compute_glyph_lines]. *)
Lemma compute_glyph_lines_checked_agrees (malloc_zero_null : bool)
    (face : FT_Face) (glyphs_boundary : GlyphsBoundary)
    (word_glyps : list WordGlyphs) :
  word_glyps <> [] ->
  compute_glyph_lines_checked malloc_zero_null face glyphs_boundary word_glyps
  = Returns (compute_glyph_lines face glyphs_boundary word_glyps).
Proof.
  intros Hne. unfold compute_glyph_lines_checked, malloc_cells.
  assert (Hlen : Z.of_nat (length word_glyps) <> 0)
    by (destruct word_glyps; [congruence | cbn [length]; lia]).
  apply Z.eqb_neq in Hlen. rewrite Hlen. cbn [andb].
  destruct (loop_checked_agrees
              (fst (face_get_string_extent face utf32_space))
              (face_get_line_spacing face) glyphs_boundary
              (Z.of_nat (length word_glyps)) word_glyps
              (Z.of_nat (length word_glyps)) (loop_entry glyphs_boundary))
    as [Hloop Hlast].
  - unfold blocks_invariant.
    cbn [loop_entry curr_line_word_count line_count displayable_word_count].
    lia.
  - intros Hnil. now elim Hne.
  - rewrite Hloop. unfold write_last_line_checked, compute_glyph_lines.
    destruct (height_is_overflowed _) eqn:Hflag; cbn [negb].
    + reflexivity.
    + now rewrite cell_of_block_true by (apply Hlast; reflexivity).
Qed.

(** Words that all fit before [width] are appended to the line in
    progress, one after the other. *)
Lemma loop_all_fit space_x ls b (words : list WordGlyphs) (s : LoopState) :
  no_more_space ls b s = false ->
  Forall (fun w => 0 <= x_extent w + space_x) words ->
  curr_x s + words_advance space_x words <= width b ->
  glyph_lines_loop space_x ls b words s
  = {| curr_x := curr_x s + words_advance space_x words;
       curr_y := curr_y s;
       words_in_curr_line := words_in_curr_line s ++ map word32 words;
       curr_line_word_count :=
         curr_line_word_count s + Z.of_nat (length words);
       displayable_word_count := displayable_word_count s;
       glyph_lines := glyph_lines s;
       line_count := line_count s;
       height_is_overflowed := height_is_overflowed s |}.
Proof.
  revert s. induction words as [|w rest IH]; intros s Hh Hpos Hfit.
  - destruct s. unfold words_advance, sum_Z. cbn.
    rewrite app_nil_r. f_equal; lia.
  - inversion Hpos as [|? ? Hw Hrest]; subst.
    assert (Hrest_pos : 0 <= words_advance space_x rest).
    { clear - Hrest. unfold words_advance, sum_Z.
      induction Hrest; simpl; lia. }
    unfold words_advance, sum_Z in Hfit. cbn [map fold_right] in Hfit.
    fold (sum_Z (map (fun w => x_extent w + space_x) rest)) in Hfit.
    fold (words_advance space_x rest) in Hfit.
    rewrite loop_step by assumption.
    replace (is_end_of_line b s (x_extent w + space_x)) with false
      by (symmetry; unfold is_end_of_line; rewrite Z.gtb_ltb;
          apply Z.ltb_ge; lia).
    cbn [andb]. rewrite IH.
    + cbn [place_word curr_x curr_y words_in_curr_line curr_line_word_count
           displayable_word_count glyph_lines line_count height_is_overflowed
           map length].
      unfold words_advance, sum_Z. cbn [map fold_right].
      rewrite <- app_assoc. cbn [app]. f_equal; lia.
    + exact Hh.
    + exact Hrest.
    + cbn [place_word curr_x]. lia.
Qed.

(** X5. One word or more, whose advances are not negative and which,
    laid out from [init_x] with one space after each, end at or before
    [width], in a boundary that admits a line at [init_y], come back from
    [compute_glyph_lines] as one line, at [init_y], holding all of them in
    order; every store of the call is inside its block, whatever
    [malloc (0)] gives. *)
Theorem compute_glyph_lines_single_line (face : FT_Face)
    (glyphs_boundary : GlyphsBoundary) (word_glyps : list WordGlyphs) :
  let space_x := fst (face_get_string_extent face utf32_space) in
  word_glyps <> [] ->
  line_fits glyphs_boundary (face_get_line_spacing face)
    (init_y glyphs_boundary) = true ->
  Forall (fun w => 0 <= x_extent w + space_x) word_glyps ->
  init_x glyphs_boundary + words_advance space_x word_glyps
  <= width glyphs_boundary ->
  compute_glyph_lines face glyphs_boundary word_glyps
  = [ {| line_word32 := map word32 word_glyps;
         y_position := init_y glyphs_boundary;
         word_count := Z.of_nat (length word_glyps) |} ]
  /\ forall malloc_zero_null : bool,
       compute_glyph_lines_checked malloc_zero_null face glyphs_boundary
         word_glyps
       = Returns
           [ {| line_word32 := map word32 word_glyps;
                y_position := init_y glyphs_boundary;
                word_count := Z.of_nat (length word_glyps) |} ].
Proof.
  intros space_x Hne Hfits Hpos Hw.
  assert (Hlines :
    compute_glyph_lines face glyphs_boundary word_glyps
    = [ {| line_word32 := map word32 word_glyps;
           y_position := init_y glyphs_boundary;
           word_count := Z.of_nat (length word_glyps) |} ]).
  { unfold compute_glyph_lines. fold space_x.
    rewrite loop_all_fit.
    - reflexivity.
    - rewrite no_more_space_line_fits. cbn [loop_entry curr_y].
      now rewrite Hfits.
    - exact Hpos.
    - exact Hw. }
  split; [exact Hlines|].
  intros malloc_zero_null.
  rewrite compute_glyph_lines_checked_agrees by exact Hne.
  now rewrite Hlines.
Qed.

Lemma compute_glyph_lines_single_line_witness :
  compute_glyph_lines demo_face main_boundary five_words
  = [ {| line_word32 := map word32 five_words;
         y_position := 5;
         word_count := 5 |} ]
  /\ forall malloc_zero_null : bool,
       compute_glyph_lines_checked malloc_zero_null demo_face main_boundary
         five_words
       = Returns
           [ {| line_word32 := map word32 five_words;
                y_position := 5;
                word_count := 5 |} ].
Proof.
  apply (compute_glyph_lines_single_line demo_face main_boundary five_words).
  - discriminate.
  - reflexivity.
  - repeat constructor; vm_compute; congruence.
  - vm_compute. congruence.
Defined.

(** ** Measuring and drawing strings *)

Lemma string_extent_loop_width (face : FT_Face) (s : UTF32_string)
    (acc : Z * Z) :
  fst (string_extent_loop face s acc)
  = fst acc + fst (string_extent_loop face s (0, 0)).
Proof.
  revert acc. induction s as [|c s IH]; intros acc.
  - simpl. lia.
  - cbn [string_extent_loop face_get_char_extent].
    destruct (c =? 0); [cbn; lia|].
    rewrite (IH (fst acc + _, _)), (IH (fst (0, 0) + _, _)).
    cbn [fst]. lia.
Qed.

Lemma string_extent_loop_zero_free (face : FT_Face) (s1 s2 : UTF32_string)
    (acc : Z * Z) :
  Forall (fun c => c <> 0) s1 ->
  string_extent_loop face (s1 ++ 0 :: s2) acc = string_extent_loop face s1 acc
  /\ fst (string_extent_loop face s1 acc)
     = fst acc + sum_Z (map (measured_advance_of face) s1)
  /\ snd (string_extent_loop face s1 acc)
     = match s1 with
       | [] => snd acc
       | _ :: _ => face_get_line_spacing face
       end.
Proof.
  intros Hnz. revert acc.
  induction Hnz as [|c s1 Hc Hnz IH]; intros acc.
  - repeat split. cbn. lia.
  - cbn [app string_extent_loop].
    rewrite (proj2 (Z.eqb_neq c 0) Hc).
    cbn [face_get_char_extent].
    destruct (IH (fst acc
                  + Z.quot
                      (metrics_horiAdvance
                         (glyph_metrics
                            (FT_Load_Glyph face (FT_Get_Char_Index face c)
                               FT_LOAD_NO_BITMAP)))
                      64,
                  face_get_line_spacing face)) as [H1 [H2 H3]].
    repeat split.
    + exact H1.
    + rewrite H2. cbn [fst map]. unfold sum_Z. cbn [fold_right].
      unfold measured_advance_of at 2. lia.
    + rewrite H3. destruct s1; reflexivity.
Qed.

(** X6. [face_get_string_extent] stops at the first zero cell.  For
    a string whose cells before it are not zero, the width it returns is
    the sum of the advances of those cells, each [horiAdvance / 64], and
    the height is the line spacing of the face, or 0 when there is no such
    cell (the empty string). *)
Theorem face_get_string_extent_sum (face : FT_Face) (s rest : UTF32_string) :
  Forall (fun c => c <> 0) s ->
  face_get_string_extent face (s ++ 0 :: rest)
  = face_get_string_extent face s
  /\ fst (face_get_string_extent face s)
     = sum_Z (map (measured_advance_of face) s)
  /\ snd (face_get_string_extent face s)
     = match s with
       | [] => 0
       | _ :: _ => face_get_line_spacing face
       end.
Proof.
  intros Hnz. unfold face_get_string_extent.
  destruct (string_extent_loop_zero_free face s rest (0, 0) Hnz)
    as [H1 [H2 H3]].
  repeat split; assumption.
Qed.

Lemma face_get_string_extent_sum_witness :
  face_get_string_extent demo_face (word_AAAA ++ 0 :: [66; 66])
  = face_get_string_extent demo_face word_AAAA
  /\ fst (face_get_string_extent demo_face word_AAAA)
     = sum_Z (map (measured_advance_of demo_face) word_AAAA)
  /\ snd (face_get_string_extent demo_face word_AAAA)
     = face_get_line_spacing demo_face.
Proof.
  apply (face_get_string_extent_sum demo_face word_AAAA [66; 66]).
  repeat constructor; discriminate.
Defined.

Lemma draw_string_pen (face : FT_Face) (fb : FrameBuffer) (s : UTF32_string)
    (x y : Z) :
  advances_agree face ->
  snd (face_draw_string_on_fb face fb s x y)
  = x + fst (string_extent_loop face s (0, 0)).
Proof.
  intros Hagree. revert fb x. induction s as [|c s IH]; intros fb x.
  - simpl. lia.
  - cbn [face_draw_string_on_fb string_extent_loop].
    destruct (c =? 0); [simpl; lia|].
    unfold face_draw_char_on_fb. cbn [face_get_char_extent].
    rewrite IH. rewrite (string_extent_loop_width face s (0 + _, _)).
    cbn [fst]. pose proof (Hagree c) as Hc.
    unfold advance_of, glyph_of, measured_advance_of in Hc. lia.
Qed.

(** The pen after drawing a string is the pen before plus the advances of
    its glyphs as the drawing load gives them. *)
Lemma draw_string_pen_drawn (face : FT_Face) (fb : FrameBuffer)
    (s : UTF32_string) (x y : Z) :
  Forall (fun c => c <> 0) s ->
  snd (face_draw_string_on_fb face fb s x y)
  = x + sum_Z (map (advance_of face) s).
Proof.
  intros Hnz. revert fb x. induction Hnz as [|c s Hc Hnz IH]; intros fb x.
  - unfold sum_Z. simpl. lia.
  - cbn [face_draw_string_on_fb]. rewrite (proj2 (Z.eqb_neq c 0) Hc).
    unfold face_draw_char_on_fb. rewrite IH.
    unfold sum_Z. cbn [map fold_right]. unfold advance_of at 2, glyph_of.
    lia.
Qed.

(** X7. For a face that gives each glyph the same advance under the load
    flags of drawing ([FT_LOAD_DEFAULT]) and of measuring
    ([FT_LOAD_NO_BITMAP]), drawing a string moves the pen by the width
    that measuring gives for it: the [*x] left by [face_draw_string_on_fb]
    is the [x] it got plus the width returned by
    [face_get_string_extent].  Without that agreement the pen moves by the
    advances of the drawing load, which the measured width need not
    equal. *)
Theorem face_draw_string_on_fb_advance (face : FT_Face) (fb : FrameBuffer)
    (s : UTF32_string) (x y : Z) :
  (advances_agree face ->
   snd (face_draw_string_on_fb face fb s x y)
   = x + fst (face_get_string_extent face s))
  /\ (Forall (fun c => c <> 0) s ->
      snd (face_draw_string_on_fb face fb s x y)
      = x + sum_Z (map (advance_of face) s)
      /\ fst (face_get_string_extent face s)
         = sum_Z (map (measured_advance_of face) s)).
Proof.
  split.
  - intros Hagree. now apply draw_string_pen.
  - intros Hnz. split; [now apply draw_string_pen_drawn|].
    destruct (string_extent_loop_zero_free face s [] (0, 0) Hnz)
      as [_ [H2 _]].
    exact H2.
Qed.

Lemma face_draw_string_on_fb_advance_witness :
  snd (face_draw_string_on_fb demo_face demo_fb word_AAAA 5 5)
  = 5 + fst (face_get_string_extent demo_face word_AAAA)
  /\ snd (face_draw_string_on_fb bitmap_strike_face demo_fb word_AAAA 5 5)
     = 5 + sum_Z (map (advance_of bitmap_strike_face) word_AAAA)
  /\ fst (face_get_string_extent bitmap_strike_face word_AAAA)
     = sum_Z (map (measured_advance_of bitmap_strike_face) word_AAAA).
Proof.
  split.
  - apply (proj1 (face_draw_string_on_fb_advance demo_face demo_fb word_AAAA
                    5 5)).
    intros c. reflexivity.
  - apply (proj2 (face_draw_string_on_fb_advance bitmap_strike_face demo_fb
                    word_AAAA 5 5)).
    repeat constructor; discriminate.
Defined.

(** On a face whose advances depend on the load flags, the pen moved by
    drawing and the measured width differ: here 12 pixels a glyph against
    10. *)
Example drawn_and_measured_widths_differ :
  snd (face_draw_string_on_fb bitmap_strike_face demo_fb word_AAAA 0 5) = 48
  /\ fst (face_get_string_extent bitmap_strike_face word_AAAA) = 40.
Proof. split; reflexivity. Qed.

Lemma draw_line_words_pen (face : FT_Face) (y : Z)
    (done todo : list UTF32_string) (fb : FrameBuffer) (x : Z) :
  advances_agree face ->
  snd (for_from (length todo) (Z.of_nat (length done))
         (fun curr_word_idx '(fb, x) =>
            let curr_word :=
              nth (Z.to_nat curr_word_idx) (done ++ todo) [] in
            let '(fb, x) := face_draw_string_on_fb face fb curr_word x y in
            face_draw_string_on_fb face fb utf32_space x y)
         (fb, x))
  = x + line_advance face todo.
Proof.
  intros Hagree.
  revert done fb x. induction todo as [|w todo IH]; intros done fb x.
  - unfold line_advance, sum_Z. simpl. lia.
  - cbn [length for_from].
    rewrite Nat2Z.id, app_nth2, Nat.sub_diag by lia. cbn [nth].
    pose proof (draw_string_pen face fb w x y Hagree) as Hw.
    destruct (face_draw_string_on_fb face fb w x y) as [fb1 x1].
    pose proof (draw_string_pen face fb1 utf32_space x1 y Hagree) as Hs.
    destruct (face_draw_string_on_fb face fb1 utf32_space x1 y) as [fb2 x2].
    cbn [snd] in Hw, Hs.
    replace (Z.of_nat (length done) + 1)
      with (Z.of_nat (length (done ++ [w])))
      by (rewrite length_app; simpl; lia).
    replace (done ++ w :: todo) with ((done ++ [w]) ++ todo)
      by (rewrite <- app_assoc; reflexivity).
    rewrite IH. unfold line_advance, sum_Z. cbn [map fold_right].
    unfold face_get_string_extent. lia.
Qed.

(** X8. For a face that gives each glyph the same advance under the load
    flags of drawing and of measuring, drawing the words of a line in
    [draw_word_glyphs], each followed by a space, moves the pen from the
    start of the line by the extents of its words plus one space width for
    each word: the drawn line is as wide as the line breaker counted
    it. *)
Theorem draw_line_words_advance (face : FT_Face) (line : GlyphsLine)
    (y : Z) (fb : FrameBuffer) (x : Z) :
  advances_agree face ->
  count_matches line ->
  snd (draw_line_words face line y (fb, x))
  = x + sum_Z (map (fun w => fst (face_get_string_extent face w)
                             + fst (face_get_string_extent face utf32_space))
                 (line_word32 line)).
Proof.
  intros Hagree Hc. unfold draw_line_words, for_loop. rewrite Hc, Nat2Z.id.
  exact (draw_line_words_pen face y [] (line_word32 line) fb x Hagree).
Qed.

Lemma draw_line_words_advance_witness :
  snd (draw_line_words demo_face two_word_line 5 (demo_fb, 5))
  = 5 + sum_Z (map (fun w => fst (face_get_string_extent demo_face w)
                             + fst (face_get_string_extent demo_face
                                      utf32_space))
                 (line_word32 two_word_line)).
Proof.
  apply (draw_line_words_advance demo_face two_word_line 5 demo_fb 5).
  - intros c. reflexivity.
  - reflexivity.
Defined.

(** ** Drawing and the pixels of the framebuffer *)

Lemma set_pixel_inside (self : FrameBuffer) (x y : Z) (r g b : BYTE)
    (x' y' : Z) :
  inside (framebuffer_set_pixel self x y r g b) x' y' = inside self x' y'.
Proof.
  destruct (set_pixel_geometry self x y r g b) as [Hw [Hh _]].
  unfold inside. now rewrite Hw, Hh.
Qed.

Lemma set_pixel_index (self : FrameBuffer) (x y : Z) (r g b : BYTE)
    (x' y' : Z) :
  pixel_index (framebuffer_set_pixel self x y r g b) x' y'
  = pixel_index self x' y'.
Proof.
  destruct (set_pixel_geometry self x y r g b) as [Hw [_ [HB HS]]].
  unfold pixel_index. now rewrite Hw, HB, HS.
Qed.

(** A pixel inside the surface reads as it was last set. *)
Lemma set_pixel_same_pixel (self : FrameBuffer) (x y : Z) (r g b : BYTE) :
  inside self x y = true ->
  framebuffer_get_pixel (framebuffer_set_pixel self x y r g b) x y = (r, g, b).
Proof.
  intros Hin. unfold framebuffer_get_pixel.
  rewrite set_pixel_inside, Hin, set_pixel_index.
  unfold framebuffer_set_pixel. rewrite Hin.
  cbn [with_fb_data fb_data]. unfold store. settle_eqb. reflexivity.
Qed.

(** With room for four bytes in a pixel, setting a pixel leaves every
    other pixel as it reads. *)
Lemma set_pixel_other_pixel (self : FrameBuffer) (x y : Z) (r g b : BYTE)
    (x' y' : Z) :
  4 <= fb_bytes self -> 0 <= fb_slop self ->
  (x', y') <> (x, y) ->
  framebuffer_get_pixel (framebuffer_set_pixel self x y r g b) x' y'
  = framebuffer_get_pixel self x' y'.
Proof.
  intros Hb Hs Hne. unfold framebuffer_get_pixel.
  rewrite set_pixel_inside, set_pixel_index.
  destruct (inside self x' y') eqn:Hi'; [|reflexivity].
  destruct (inside self x y) eqn:Hi.
  - pose proof (pixel_index_apart self x y x' y' Hb Hs Hi Hi' Hne) as Hap.
    rewrite !set_pixel_other_bytes by lia. reflexivity.
  - unfold framebuffer_set_pixel. now rewrite Hi.
Qed.

Lemma write_grey_geometry (fb : FrameBuffer) (w : Z * Z * BYTE) :
  fb_w (write_grey fb w) = fb_w fb /\ fb_h (write_grey fb w) = fb_h fb
  /\ fb_bytes (write_grey fb w) = fb_bytes fb
  /\ fb_slop (write_grey fb w) = fb_slop fb.
Proof. destruct w as [[px py] p]. apply set_pixel_geometry. Qed.

(** Pixels that no write of a list addresses read as before. *)
Lemma writes_other_pixel (writes : list (Z * Z * BYTE)) (fb : FrameBuffer)
    (x' y' : Z) :
  4 <= fb_bytes fb -> 0 <= fb_slop fb ->
  (forall p : BYTE, ~ In (x', y', p) writes) ->
  framebuffer_get_pixel (fold_left write_grey writes fb) x' y'
  = framebuffer_get_pixel fb x' y'.
Proof.
  revert fb. induction writes as [|[[px py] p] writes IH]; intros fb Hb Hs Hno;
    [reflexivity|].
  cbn [fold_left].
  destruct (write_grey_geometry fb (px, py, p)) as [_ [_ [HB HS]]].
  rewrite IH.
  - cbn [write_grey]. apply set_pixel_other_pixel; try assumption.
    intros Heq. inversion Heq; subst. apply (Hno p). now left.
  - now rewrite HB.
  - now rewrite HS.
  - intros q Hq. apply (Hno q). now right.
Qed.

(** A pixel that the writes of a list address with one value only reads
    as that value afterwards. *)
Lemma writes_same_pixel (writes : list (Z * Z * BYTE)) (fb : FrameBuffer)
    (px py : Z) (p : BYTE) :
  4 <= fb_bytes fb -> 0 <= fb_slop fb ->
  inside fb px py = true ->
  (forall q : BYTE, In (px, py, q) writes -> q = p) ->
  In (px, py, p) writes \/ framebuffer_get_pixel fb px py = (p, p, p) ->
  framebuffer_get_pixel (fold_left write_grey writes fb) px py = (p, p, p).
Proof.
  revert fb.
  induction writes as [|[[wx wy] q] writes IH]; intros fb Hb Hs Hin Hval Hor.
  - destruct Hor as [[] | Hget]. exact Hget.
  - cbn [fold_left].
    destruct (write_grey_geometry fb (wx, wy, q)) as [_ [_ [HB HS]]].
    assert (Hin' : inside (write_grey fb (wx, wy, q)) px py = true)
      by (cbn [write_grey]; now rewrite set_pixel_inside).
    assert (Hval' : forall q', In (px, py, q') writes -> q' = p)
      by (intros q' Hq'; apply Hval; now right).
    apply IH; try assumption; try (rewrite HB || rewrite HS; assumption).
    destruct (Z.eq_dec wx px) as [-> | Hx];
      [destruct (Z.eq_dec wy py) as [-> | Hy]|].
    + right. rewrite (Hval q) by now left.
      cbn [write_grey]. now apply set_pixel_same_pixel.
    + destruct Hor as [[Heq | Hrest] | Hget];
        [inversion Heq; congruence | now left |].
      right. cbn [write_grey]. rewrite set_pixel_other_pixel; try assumption.
      congruence.
    + destruct Hor as [[Heq | Hrest] | Hget];
        [inversion Heq; congruence | now left |].
      right. cbn [write_grey]. rewrite set_pixel_other_pixel; try assumption.
      congruence.
Qed.

(** X9. On a surface with four bytes or more to a pixel,
    [face_draw_char_on_fb] changes no pixel but those under a cell of the
    glyph bitmap whose coverage is not zero: a pixel that lies outside the
    bitmap placed at [(x + x_off, y + y_off)], or under a cell of coverage
    0, reads after the call as it read before (the background shows
    through). *)
Theorem face_draw_char_on_fb_frame (face : FT_Face) (fb : FrameBuffer)
    (c x y : Z) (x' y' : Z) :
  let bitmap :=
    glyph_bitmap
      (FT_Load_Glyph face (FT_Get_Char_Index face c) FT_LOAD_DEFAULT) in
  4 <= fb_bytes fb -> 0 <= fb_slop fb ->
  (forall i j : Z,
      0 <= i < bitmap_rows bitmap -> 0 <= j < bitmap_width bitmap ->
      x' = x + j + x_off_of face c -> y' = y + i + y_off_of face c ->
      bitmap_buffer bitmap (i * bitmap_pitch bitmap + j) = 0) ->
  framebuffer_get_pixel (fst (face_draw_char_on_fb face fb c x y)) x' y'
  = framebuffer_get_pixel fb x' y'.
Proof.
  intros bitmap Hb Hs Hzero. rewrite draw_char_as_writes.
  apply writes_other_pixel; try assumption.
  intros p Hin. apply coverage_writes_In in Hin.
  destruct Hin as [i [j [Hi [Hj [Hp [Hnz [Hx Hy]]]]]]].
  apply Hnz. rewrite Hp. now apply Hzero.
Qed.

Lemma face_draw_char_on_fb_frame_witness :
  framebuffer_get_pixel
    (fst (face_draw_char_on_fb demo_glyph_face demo_fb 65 1 0)) 3 1
  = framebuffer_get_pixel demo_fb 3 1.
Proof.
  apply (face_draw_char_on_fb_frame demo_glyph_face demo_fb 65 1 0 3 1).
  - cbn. lia.
  - cbn. lia.
  - intros i j Hi Hj Hx Hy.
    change (x_off_of demo_glyph_face 65) with 1 in Hx.
    change (y_off_of demo_glyph_face 65) with 1 in Hy.
    assert (i = 0) by lia. assert (j = 1) by lia. subst. reflexivity.
Defined.

(** X10. On a surface with four bytes or more to a pixel, on which every
    pixel that [framebuffer_set_pixel] accepts has its four bytes inside
    the mapped memory, after [face_draw_char_on_fb] the pixel under a cell
    of the glyph bitmap whose coverage [p] is not zero, when it lies inside
    the bounds that [framebuffer_set_pixel] accepts, reads [(p, p, p)]:
    the glyph is on the framebuffer as its coverage, whatever was there
    before. *)
Theorem face_draw_char_on_fb_shows_glyph (face : FT_Face) (fb : FrameBuffer)
    (c x y : Z) (i j : Z) :
  let bitmap :=
    glyph_bitmap
      (FT_Load_Glyph face (FT_Get_Char_Index face c) FT_LOAD_DEFAULT) in
  let p := bitmap_buffer bitmap (i * bitmap_pitch bitmap + j) in
  4 <= fb_bytes fb -> 0 <= fb_slop fb ->
  pixels_mapped fb ->
  0 <= i < bitmap_rows bitmap -> 0 <= j < bitmap_width bitmap ->
  p <> 0 ->
  inside fb (x + j + x_off_of face c) (y + i + y_off_of face c) = true ->
  framebuffer_get_pixel (fst (face_draw_char_on_fb face fb c x y))
    (x + j + x_off_of face c) (y + i + y_off_of face c)
  = (p, p, p)
  /\ 0 <= pixel_index fb (x + j + x_off_of face c) (y + i + y_off_of face c)
  /\ pixel_index fb (x + j + x_off_of face c) (y + i + y_off_of face c) + 3
     < fb_data_size fb.
Proof.
  intros bitmap p. subst p bitmap. fold (glyph_of face c).
  intros Hb Hs Hmapped Hi Hj Hnz Hin.
  split; [|exact (Hmapped _ _ Hin)].
  rewrite draw_char_as_writes.
  apply writes_same_pixel; try assumption.
  - intros q Hq. apply coverage_writes_In in Hq.
    destruct Hq as [i' [j' [Hi' [Hj' [Hq [_ [Hx Hy]]]]]]].
    assert (i' = i) by lia. assert (j' = j) by lia. subst i' j'. exact Hq.
  - left. apply coverage_writes_In. exists i, j. repeat split; trivial; lia.
Qed.

Lemma face_draw_char_on_fb_shows_glyph_witness :
  framebuffer_get_pixel
    (fst (face_draw_char_on_fb demo_glyph_face demo_fb_unpadded 65 1 0))
    (1 + 1 + x_off_of demo_glyph_face 65) (0 + 1 + y_off_of demo_glyph_face 65)
  = (128, 128, 128)
  /\ 0 <= pixel_index demo_fb_unpadded
            (1 + 1 + x_off_of demo_glyph_face 65)
            (0 + 1 + y_off_of demo_glyph_face 65)
  /\ pixel_index demo_fb_unpadded
       (1 + 1 + x_off_of demo_glyph_face 65)
       (0 + 1 + y_off_of demo_glyph_face 65) + 3
     < fb_data_size demo_fb_unpadded.
Proof.
  apply (face_draw_char_on_fb_shows_glyph demo_glyph_face demo_fb_unpadded
           65 1 0 1 1).
  - cbn. lia.
  - cbn. lia.
  - intros x y Hin. apply inside_spec in Hin.
    unfold pixel_index. cbn in Hin |- *. lia.
  - cbn. lia.
  - cbn. lia.
  - cbn. discriminate.
  - reflexivity.
Defined.

(** ** The framebuffer: mapped size and clearing *)

Lemma framebuffer_init_stride xres yres bits_per_pixel line_length data :
  let fb := framebuffer_init xres yres bits_per_pixel line_length data in
  fb_stride fb = fb_w fb * fb_bytes fb + fb_slop fb.
Proof. unfold framebuffer_init. cbn. lia. Qed.

(** X11. On a 32-bpp framebuffer whose device reports no padding at the
    end of a row ([line_length] at most four times [xres]), the four bytes
    that [framebuffer_set_pixel] stores for a pixel it accepts all lie
    inside the [fb_data_size] bytes that [framebuffer_init] maps. *)
Theorem framebuffer_set_pixel_within_mapping
    (xres yres line_length : Z) (data : Z -> BYTE) (x y : Z) :
  let fb := framebuffer_init xres yres 32 line_length data in
  line_length <= 4 * xres ->
  inside fb x y = true ->
  0 <= pixel_index fb x y /\ pixel_index fb x y + 3 < fb_data_size fb.
Proof.
  intros fb Hll Hin. apply inside_spec in Hin.
  unfold fb, framebuffer_init, pixel_index in *.
  cbn [fb_w fb_h fb_bytes fb_slop fb_data_size] in *.
  change (Z.quot 32 8) with 4.
  replace (Z.max line_length (xres * 4) - xres * 4) with 0 by lia.
  assert (H1 : y * xres <= (yres - 1) * xres) by nia.
  assert (H2 : 0 <= y * xres) by nia.
  nia.
Qed.

Lemma framebuffer_set_pixel_within_mapping_witness :
  0 <= pixel_index (framebuffer_init 4 3 32 16 (fun _ => 9)) 3 2
  /\ pixel_index (framebuffer_init 4 3 32 16 (fun _ => 9)) 3 2 + 3
     < fb_data_size (framebuffer_init 4 3 32 16 (fun _ => 9)).
Proof.
  apply (framebuffer_set_pixel_within_mapping 4 3 16 (fun _ => 9) 3 2);
    [lia | reflexivity].
Defined.



Lemma memset_inside (data : Z -> BYTE) (c : BYTE) (n k : Z) :
  0 <= k < n -> memset data c n k = c.
Proof.
  intros Hk. unfold memset.
  replace (0 <=? k) with true by (symmetry; apply Z.leb_le; lia).
  replace (k <? n) with true by (symmetry; apply Z.ltb_lt; lia).
  reflexivity.
Qed.

(** The three bytes that [framebuffer_get_pixel] reads for a pixel
    inside the surface lie in the [stride * h] bytes that
    [framebuffer_clear] zeroes. *)
Lemma pixel_within_stride (w h B S x y : Z) :
  3 <= B -> 0 <= S -> 0 < x < w -> 0 < y < h ->
  0 <= (y * w + x) * B + y * S
  /\ (y * w + x) * B + y * S + 2 < (w * B + S) * h.
Proof.
  intros HB HS Hx Hy.
  assert (H1 : 0 <= y * w) by nia.
  assert (H2 : 0 <= y * S) by nia.
  assert (H3 : 0 <= (y * w + x) * B) by nia.
  assert (H4 : x * B + 3 <= w * B) by nia.
  assert (H5 : (w * B + S) * (y + 1) <= (w * B + S) * h) by nia.
  split; [lia|]. nia.
Qed.

Lemma memset_outside (data : Z -> BYTE) (c : BYTE) (n k : Z) :
  n <= k -> memset data c n k = data k.
Proof.
  intros Hk. unfold memset.
  replace (k <? n) with false by (symmetry; apply Z.ltb_ge; lia).
  now rewrite andb_false_r.
Qed.

(** X13. On a framebuffer with three bytes or more to a pixel, whose
    [stride] is the bytes of a row plus a padding that is not negative (as
    [framebuffer_init] computes it) and whose [stride * h] bytes all lie
    in the [fb_data_size] bytes of the mapped memory, after
    [framebuffer_clear] every pixel reads black through
    [framebuffer_get_pixel], no byte at or beyond [fb_data_size] has
    changed, and the geometry is as before. *)
Theorem framebuffer_clear_black (self : FrameBuffer) (x y : Z) :
  3 <= fb_bytes self -> 0 <= fb_slop self ->
  fb_stride self = fb_w self * fb_bytes self + fb_slop self ->
  fb_stride self * fb_h self <= fb_data_size self ->
  framebuffer_get_pixel (framebuffer_clear self) x y = (0, 0, 0)
  /\ (forall k : Z,
        fb_data_size self <= k ->
        fb_data (framebuffer_clear self) k = fb_data self k)
  /\ framebuffer_get_width (framebuffer_clear self)
     = framebuffer_get_width self
  /\ framebuffer_get_height (framebuffer_clear self)
     = framebuffer_get_height self.
Proof.
  intros HB HS Hstride Hmapped.
  split; [|split; [|split; reflexivity]].
  - unfold framebuffer_get_pixel, framebuffer_clear.
    change (inside (with_fb_data self _) x y) with (inside self x y).
    destruct (inside self x y) eqn:Hin; [|reflexivity].
    apply inside_spec in Hin.
    change (pixel_index (with_fb_data self _) x y)
      with (pixel_index self x y).
    cbn [with_fb_data fb_data]. unfold pixel_index. rewrite Hstride.
    destruct (pixel_within_stride (fb_w self) (fb_h self) (fb_bytes self)
                (fb_slop self) x y) as [Hlo Hhi]; try lia.
    rewrite !memset_inside by lia. reflexivity.
  - intros k Hk. unfold framebuffer_clear. cbn [with_fb_data fb_data].
    apply memset_outside. lia.
Qed.

Lemma framebuffer_clear_black_witness :
  framebuffer_get_pixel (framebuffer_clear demo_fb_unpadded) 2 1 = (0, 0, 0)
  /\ (forall k : Z,
        fb_data_size demo_fb_unpadded <= k ->
        fb_data (framebuffer_clear demo_fb_unpadded) k
        = fb_data demo_fb_unpadded k)
  /\ framebuffer_get_width (framebuffer_clear demo_fb_unpadded)
     = framebuffer_get_width demo_fb_unpadded
  /\ framebuffer_get_height (framebuffer_clear demo_fb_unpadded)
     = framebuffer_get_height demo_fb_unpadded.
Proof.
  apply (framebuffer_clear_black demo_fb_unpadded 2 1); cbn; lia.
Defined.

(** ** UTF-8: classes of the first byte *)

Lemma next_utf8_glyph_length_lead (buf : list UTF8) (p b : Z) :
  load8 buf p = Done b ->
  next_utf8_glyph_length buf p = Done (lead_length b).
Proof.
  intros H. unfold next_utf8_glyph_length, lead_length. rewrite H. cbn [bind].
  repeat (destruct (_ =? _); [reflexivity|]). reflexivity.
Qed.

Lemma lead_length_bytes :
  forallb (fun b => lead_length b =? utf8_length_by_range b)
    (map Z.of_nat (seq 0 256)) = true.
Proof. vm_compute. reflexivity. Qed.

Lemma lead_length_by_range (b : Z) :
  0 <= b < 256 -> lead_length b = utf8_length_by_range b.
Proof.
  intros Hb. apply Z.eqb_eq.
  apply (proj1 (forallb_forall _ _) lead_length_bytes).
  apply in_map_iff. exists (Z.to_nat b). split; [lia|].
  apply in_seq. lia.
Qed.

(** X14. [next_utf8_glyph_length] sorts the values of a byte into
    ranges: 1 for 0x00 to 0x7F, 2 for 0xC0 to 0xDF, 3 for 0xE0 to 0xEF, 4
    for 0xF0 to 0xF7, and -1 for the continuation bytes 0x80 to 0xBF and
    for 0xF8 to 0xFF.  It looks at that byte only. *)
Theorem next_utf8_glyph_length_ranges (b : UTF8) (rest : list UTF8) :
  0 <= b < 256 ->
  next_utf8_glyph_length (b :: rest) 0
  = Done (if b <? 0x80 then 1
          else if b <? 0xC0 then -1
          else if b <? 0xE0 then 2
          else if b <? 0xF0 then 3
          else if b <? 0xF8 then 4
          else -1).
Proof.
  intros Hb.
  rewrite (next_utf8_glyph_length_lead (b :: rest) 0 b).
  - now rewrite lead_length_by_range.
  - unfold load8. cbn [length]. 
    replace (0 <? Z.of_nat (S (length rest))) with true
      by (symmetry; apply Z.ltb_lt; lia).
    reflexivity.
Qed.

Lemma next_utf8_glyph_length_ranges_witness :
  next_utf8_glyph_length [0xE2; 0x82; 0xAC; 0] 0 = Done 3.
Proof.
  apply (next_utf8_glyph_length_ranges 0xE2 [0x82; 0xAC; 0]). lia.
Defined.

(** ** UTF-8: decoding what the encoder produces *)

(** Reading inside a segment of the buffer. *)
Lemma load8_middle (pre l rest : list UTF8) (k : nat) :
  (k < length l)%nat ->
  load8 (pre ++ l ++ rest) (Z.of_nat (length pre) + Z.of_nat k)
  = Done (nth k l 0).
Proof.
  intros Hk. unfold load8.
  replace (0 <=? Z.of_nat (length pre) + Z.of_nat k) with true
    by (symmetry; apply Z.leb_le; lia).
  replace (Z.of_nat (length pre) + Z.of_nat k
           <? Z.of_nat (length (pre ++ l ++ rest))) with true
    by (symmetry; apply Z.ltb_lt; rewrite !length_app; lia).
  cbn [andb].
  replace (Z.to_nat (Z.of_nat (length pre) + Z.of_nat k))
    with (length pre + k)%nat by lia.
  rewrite app_nth2_plus, app_nth1 by assumption. reflexivity.
Qed.

Lemma load8_first (pre l rest : list UTF8) :
  (0 < length l)%nat ->
  load8 (pre ++ l ++ rest) (Z.of_nat (length pre)) = Done (nth 0 l 0).
Proof.
  intros Hl. rewrite <- (load8_middle pre l rest 0 Hl). f_equal. lia.
Qed.

Section DecoderSteps.
Variable malloc_content : Z -> UTF32.
Variable buf : list UTF8.

(** One turn of each loop on a byte that is not the terminator. *)
Lemma count_glyphs_step (fuel : nat) (p word_length b : Z) :
  load8 buf p = Done b -> b <> 0 ->
  count_glyphs buf (S fuel) p word_length
  = count_glyphs buf fuel (p + lead_length b) (word_length + 1).
Proof.
  intros Hload Hb. cbn [count_glyphs]. rewrite Hload. cbn [bind].
  rewrite (proj2 (Z.eqb_neq b 0) Hb).
  now rewrite (next_utf8_glyph_length_lead buf p b Hload).
Qed.

Lemma convert_glyphs_step (fuel : nat) (p b v : Z) (utf32_word : list UTF32) :
  load8 buf p = Done b -> b <> 0 ->
  decode_glyph malloc_content buf p (lead_length b)
    (Z.of_nat (length utf32_word)) = Done v ->
  convert_glyphs malloc_content buf (S fuel) p utf32_word
  = convert_glyphs malloc_content buf fuel (p + lead_length b)
      (utf32_word ++ [v]).
Proof.
  intros Hload Hb Hv. cbn [convert_glyphs]. rewrite Hload. cbn [bind].
  rewrite (proj2 (Z.eqb_neq b 0) Hb).
  rewrite (next_utf8_glyph_length_lead buf p b Hload). cbn [bind].
  now rewrite Hv.
Qed.

(** Both loops end on the terminator. *)
Lemma loops_end (fuel : nat) (p word_length : Z) (utf32_word : list UTF32) :
  load8 buf p = Done 0 ->
  count_glyphs buf (S fuel) p word_length = Done word_length
  /\ convert_glyphs malloc_content buf (S fuel) p utf32_word
     = Done utf32_word.
Proof.
  intros Hload. cbn [count_glyphs convert_glyphs]. rewrite Hload.
  split; reflexivity.
Qed.
End DecoderSteps.

(** The values assembled by the 2-byte and 3-byte branches. *)
Lemma two_byte_value (c : Z) :
  0x80 <= c < 0x800 ->
  Z.lor (Z.shiftl (Z.land (Z.lor 0xC0 (Z.shiftr c 6)) 0x1F) 6)
    (Z.land (Z.lor 0x80 (Z.land c 0x3F)) 0x3F)
  = c.
Proof.
  intros Hc.
  change 0x3F with (Z.ones 6). change 0x1F with (Z.ones 5).
  rewrite !Z.shiftr_div_pow2 by lia.
  rewrite !(land_low_bits _ 6) by lia.
  rewrite (lor_high_low 0xC0 (c / 2 ^ 6) 5)
    by (try reflexivity; change (2 ^ 5) with 32; change (2 ^ 6) with 64;
        lia || (Z.div_mod_to_equations; lia)).
  rewrite (lor_high_low 0x80 _ 6)
    by (try reflexivity; lia || (apply Z.mod_pos_bound; reflexivity)).
  rewrite (land_low_bits _ 5) by lia.
  rewrite Z.shiftl_mul_pow2 by lia.
  change (2 ^ 6) with 64. change (2 ^ 5) with 32.
  rewrite (lor_high_low _ _ 6)
    by (try lia; change (2 ^ 6) with 64; Z.div_mod_to_equations; lia).
  Z.div_mod_to_equations. lia.
Qed.

Lemma three_byte_value (c : Z) :
  0x800 <= c < 0x10000 ->
  Z.lor
    (Z.lor (Z.shiftl (Z.land (Z.lor 0xE0 (Z.shiftr c 12)) 0x0F) 12)
       (Z.shiftl (Z.land (Z.lor 0x80 (Z.land (Z.shiftr c 6) 0x3F)) 0x3F) 6))
    (Z.land (Z.lor 0x80 (Z.land c 0x3F)) 0x3F)
  = c.
Proof.
  intros Hc.
  change 0x3F with (Z.ones 6). change 0x0F with (Z.ones 4).
  rewrite !Z.shiftr_div_pow2 by lia.
  rewrite !(land_low_bits _ 6) by lia.
  rewrite (lor_high_low 0xE0 (c / 2 ^ 12) 4)
    by (try reflexivity; change (2 ^ 4) with 16; change (2 ^ 12) with 4096;
        lia || (Z.div_mod_to_equations; lia)).
  rewrite !(lor_high_low 0x80 _ 6)
    by (try reflexivity; lia || (apply Z.mod_pos_bound; reflexivity)).
  rewrite (land_low_bits _ 4) by lia.
  rewrite !Z.shiftl_mul_pow2 by lia.
  change (2 ^ 12) with 4096. change (2 ^ 6) with 64. change (2 ^ 4) with 16.
  rewrite (lor_high_low (_ * 4096) (_ * 64) 12)
    by (try lia; change (2 ^ 12) with 4096; Z.div_mod_to_equations; lia).
  rewrite (lor_high_low _ _ 6)
    by (try lia; change (2 ^ 6) with 64; Z.div_mod_to_equations; lia).
  Z.div_mod_to_equations. lia.
Qed.

(** The first byte of an encoding: its value, and the class that the
    decoder gives it. *)
Lemma utf8_encode_lead (c : Z) :
  0 < c <= 0x10FFFF ->
  (0 < length (utf8_encode c))%nat
  /\ nth 0 (utf8_encode c) 0 <> 0
  /\ lead_length (nth 0 (utf8_encode c) 0)
     = Z.of_nat (length (utf8_encode c)).
Proof.
  intros Hc. unfold utf8_encode.
  destruct (c <? 0x80) eqn:H1; [|destruct (c <? 0x800) eqn:H2;
    [|destruct (c <? 0x10000) eqn:H3]];
    rewrite ?Z.ltb_lt, ?Z.ltb_ge in *; cbn [length nth utf8_encode2
      utf8_encode3 utf8_encode4]; (split; [lia|]).
  - split; [lia|]. rewrite lead_length_by_range by lia.
    unfold utf8_length_by_range.
    now replace (c <? 128) with true by (symmetry; apply Z.ltb_lt; lia).
  - assert (Hb : Z.lor 0xC0 (Z.shiftr c 6) = 0xC0 + c / 64).
    { rewrite Z.shiftr_div_pow2 by lia. change (2 ^ 6) with 64.
      apply (lor_high_low 0xC0 _ 5); [lia | reflexivity |].
      change (2 ^ 5) with 32. Z.div_mod_to_equations. lia. }
    rewrite Hb.
    assert (Hr : 0xC0 <= 0xC0 + c / 64 < 0xE0)
      by (Z.div_mod_to_equations; lia).
    split; [lia|]. rewrite lead_length_by_range by lia.
    unfold utf8_length_by_range.
    repeat match goal with
    | |- context [?a <? ?b] =>
        first [ replace (a <? b) with true by (symmetry; apply Z.ltb_lt; lia)
              | replace (a <? b) with false by (symmetry; apply Z.ltb_ge; lia) ]
    end. reflexivity.
  - assert (Hb : Z.lor 0xE0 (Z.shiftr c 12) = 0xE0 + c / 4096).
    { rewrite Z.shiftr_div_pow2 by lia. change (2 ^ 12) with 4096.
      apply (lor_high_low 0xE0 _ 4); [lia | reflexivity |].
      change (2 ^ 4) with 16. Z.div_mod_to_equations. lia. }
    rewrite Hb.
    assert (Hr : 0xE0 <= 0xE0 + c / 4096 < 0xF0)
      by (Z.div_mod_to_equations; lia).
    split; [lia|]. rewrite lead_length_by_range by lia.
    unfold utf8_length_by_range.
    repeat match goal with
    | |- context [?a <? ?b] =>
        first [ replace (a <? b) with true by (symmetry; apply Z.ltb_lt; lia)
              | replace (a <? b) with false by (symmetry; apply Z.ltb_ge; lia) ]
    end. reflexivity.
  - destruct (four_byte_lead c) as [a [Ha Hb]]; [lia|].
    rewrite Hb.
    split; [lia|]. rewrite lead_length_by_range by lia.
    unfold utf8_length_by_range.
    repeat match goal with
    | |- context [?a <? ?b] =>
        first [ replace (a <? b) with true by (symmetry; apply Z.ltb_lt; lia)
              | replace (a <? b) with false by (symmetry; apply Z.ltb_ge; lia) ]
    end. reflexivity.
Qed.

(** The branch of the decoder chosen for an encoding assembles the
    scalar value back. *)
Lemma decode_encoded_glyph (malloc_content : Z -> UTF32)
    (pre rest : list UTF8) (c cell : Z) :
  0 < c <= 0x10FFFF ->
  decode_glyph malloc_content (pre ++ utf8_encode c ++ rest)
    (Z.of_nat (length pre)) (Z.of_nat (length (utf8_encode c))) cell
  = Done c.
Proof.
  intros Hc. unfold utf8_encode.
  destruct (c <? 0x80) eqn:H1; [|destruct (c <? 0x800) eqn:H2;
    [|destruct (c <? 0x10000) eqn:H3]];
    rewrite ?Z.ltb_lt, ?Z.ltb_ge in *.
  - unfold decode_glyph. cbn [length Z.of_nat Pos.of_succ_nat Z.eqb Pos.eqb].
    now rewrite (load8_first pre [c] rest) by (simpl; lia).
  - pose proof (load8_first pre (utf8_encode2 c) rest
                  ltac:(simpl; lia)) as L0.
    pose proof (load8_middle pre (utf8_encode2 c) rest 1
                  ltac:(simpl; lia)) as L1.
    change (Z.of_nat 1) with 1 in L1.
    unfold decode_glyph.
    change (Z.of_nat (length (utf8_encode2 c))) with 2.
    cbn [Z.eqb Pos.eqb]. rewrite L0, L1. cbn [bind nth utf8_encode2].
    now rewrite two_byte_value by lia.
  - pose proof (load8_first pre (utf8_encode3 c) rest
                  ltac:(simpl; lia)) as L0.
    pose proof (load8_middle pre (utf8_encode3 c) rest 1
                  ltac:(simpl; lia)) as L1.
    pose proof (load8_middle pre (utf8_encode3 c) rest 2
                  ltac:(simpl; lia)) as L2.
    change (Z.of_nat 1) with 1 in L1. change (Z.of_nat 2) with 2 in L2.
    unfold decode_glyph.
    change (Z.of_nat (length (utf8_encode3 c))) with 3.
    cbn [Z.eqb Pos.eqb]. rewrite L0, L1, L2. cbn [bind nth utf8_encode3].
    now rewrite three_byte_value by lia.
  - pose proof (load8_first pre (utf8_encode4 c) rest
                  ltac:(simpl; lia)) as L0.
    pose proof (load8_middle pre (utf8_encode4 c) rest 1
                  ltac:(simpl; lia)) as L1.
    pose proof (load8_middle pre (utf8_encode4 c) rest 2
                  ltac:(simpl; lia)) as L2.
    pose proof (load8_middle pre (utf8_encode4 c) rest 3
                  ltac:(simpl; lia)) as L3.
    change (Z.of_nat 1) with 1 in L1. change (Z.of_nat 2) with 2 in L2.
    change (Z.of_nat 3) with 3 in L3.
    unfold decode_glyph.
    change (Z.of_nat (length (utf8_encode4 c))) with 4.
    cbn [Z.eqb Pos.eqb]. rewrite L0, L1, L2, L3.
    cbn [bind nth utf8_encode4].
    now rewrite four_byte_value by lia.
Qed.

(** Both loops pass over the encoding of a string of scalar values, one
    value to a turn. *)
Lemma loops_over_encoded (malloc_content : Z -> UTF32) (cs : list Z) :
  Forall (fun c => 0 < c <= 0x10FFFF) cs ->
  forall (pre rest : list UTF8) (fuel : nat) (word_length : Z)
         (utf32_word : list UTF32),
    let buf := pre ++ utf8_encode_string cs ++ rest in
    let p := Z.of_nat (length pre) in
    let q := Z.of_nat (length (pre ++ utf8_encode_string cs)) in
    count_glyphs buf (length cs + fuel) p word_length
    = count_glyphs buf fuel q (word_length + Z.of_nat (length cs))
    /\ convert_glyphs malloc_content buf (length cs + fuel) p utf32_word
       = convert_glyphs malloc_content buf fuel q (utf32_word ++ cs).
Proof.
  induction 1 as [|c cs Hc Hcs IH];
    intros pre rest fuel word_length utf32_word.
  - cbn [utf8_encode_string flat_map app length Nat.add].
    rewrite !app_nil_r. split; f_equal; lia.
  - cbn zeta. cbn [utf8_encode_string flat_map length Nat.add].
    fold (utf8_encode_string cs).
    destruct (utf8_encode_lead c Hc) as [Hlen [Hnz Hlead]].
    pose proof (load8_first pre (utf8_encode c)
                  (utf8_encode_string cs ++ rest) Hlen) as Hload.
    rewrite <- !app_assoc.
    pose proof (decode_encoded_glyph malloc_content pre
                  (utf8_encode_string cs ++ rest) c
                  (Z.of_nat (length utf32_word)) Hc) as Hdec.
    rewrite <- Hlead in Hdec.
    rewrite (count_glyphs_step _ _ _ _ _ Hload Hnz).
    rewrite (convert_glyphs_step _ _ _ _ _ _ _ Hload Hnz Hdec).
    rewrite Hlead.
    specialize (IH (pre ++ utf8_encode c) rest fuel (word_length + 1)
                  (utf32_word ++ [c])).
    cbn zeta in IH.
    rewrite <- !app_assoc in IH.
    replace (Z.of_nat (length pre) + Z.of_nat (length (utf8_encode c)))
      with (Z.of_nat (length (pre ++ utf8_encode c)))
      by (rewrite length_app; lia).
    destruct IH as [IH1 IH2]. rewrite IH1, IH2.
    split; [f_equal; lia | reflexivity].
Qed.

(** X15. Decoding inverts encoding.  For a string of scalar values
    from 1 to 0x10FFFF, of whatever lengths their encodings are (one to
    four bytes), [utf8_to_utf32] applied to its UTF-8 encoding and the
    terminator ends, given one turn more than there are values for each
    loop, and returns the string. *)
Theorem utf8_to_utf32_decodes_encoding (malloc_content : Z -> UTF32)
    (cs : list Z) (fuel : nat) :
  Forall (fun c => 0 < c <= 0x10FFFF) cs ->
  utf8_to_utf32 malloc_content (utf8_encode_string cs ++ [0])
    (length cs + S fuel)
  = Done cs.
Proof.
  intros Hcs.
  destruct (loops_over_encoded malloc_content cs Hcs [] [0] (S fuel) 0 [])
    as [Hcount Hconv].
  cbn [app length] in Hcount, Hconv.
  change (Z.of_nat 0) with 0 in Hcount, Hconv.
  unfold utf8_to_utf32. rewrite Hcount, Hconv.
  assert (Hend : load8 (utf8_encode_string cs ++ [0])
                   (Z.of_nat (length (utf8_encode_string cs))) = Done 0).
  { exact (load8_first (utf8_encode_string cs) [0] []
             ltac:(simpl; lia)). }
  destruct (loops_end malloc_content (utf8_encode_string cs ++ [0]) fuel
              (Z.of_nat (length (utf8_encode_string cs)))
              (0 + Z.of_nat (length cs)) cs Hend) as [E1 E2].
  rewrite E1. cbn [bind]. exact E2.
Qed.

Lemma utf8_to_utf32_decodes_encoding_witness :
  utf8_to_utf32 (fun _ => 0)
    (utf8_encode_string [0x41; 0xE9; 0x20AC; 0x1F600] ++ [0]) 5
  = Done [0x41; 0xE9; 0x20AC; 0x1F600].
Proof.
  apply (utf8_to_utf32_decodes_encoding (fun _ => 0)
           [0x41; 0xE9; 0x20AC; 0x1F600] 0).
  repeat constructor; lia.
Defined.

(** The encoder on known characters: A, e acute, the euro sign, U+1F600. *)
Example utf8_encode_string_known :
  utf8_encode_string [0x41; 0xE9; 0x20AC; 0x1F600]
  = [0x41; 0xC3; 0xA9; 0xE2; 0x82; 0xAC; 0xF0; 0x9F; 0x98; 0x80].
Proof. reflexivity. Qed.

(** ** UTF-8: ASCII, and sequences cut short *)

Lemma utf8_encode_string_ascii (s : list UTF8) :
  Forall (fun b => 0 < b < 0x80) s -> utf8_encode_string s = s.
Proof.
  induction 1 as [|b s Hb Hs IH]; [reflexivity|].
  cbn [utf8_encode_string flat_map]. fold (utf8_encode_string s).
  rewrite IH. unfold utf8_encode.
  now replace (b <? 128) with true by (symmetry; apply Z.ltb_lt; lia).
Qed.

Lemma earlier_strlen (s rest : list UTF8) :
  Forall (fun b => b <> 0) s ->
  Earlier.strlen (s ++ 0 :: rest) = Done (Z.of_nat (length s)).
Proof.
  induction 1 as [|b s Hb Hs IH]; [reflexivity|].
  cbn [app Earlier.strlen length]. rewrite (proj2 (Z.eqb_neq b 0) Hb), IH.
  cbn [bind]. f_equal. lia.
Qed.

Lemma earlier_copy (done todo tail : list UTF8) (ret : list UTF32) :
  for_from (length todo) (Z.of_nat (length done))
    (fun i ret => ret ++ [nth (Z.to_nat i) (done ++ todo ++ tail) 0]) ret
  = ret ++ todo.
Proof.
  revert done ret. induction todo as [|b todo IH]; intros done ret.
  - simpl. now rewrite app_nil_r.
  - cbn [length for_from].
    rewrite Nat2Z.id, app_nth2, Nat.sub_diag by lia. cbn [app nth].
    replace (Z.of_nat (length done) + 1)
      with (Z.of_nat (length (done ++ [b])))
      by (rewrite length_app; simpl; lia).
    replace (done ++ b :: todo ++ tail) with ((done ++ [b]) ++ todo ++ tail)
      by (rewrite <- app_assoc; reflexivity).
    rewrite IH, <- app_assoc. reflexivity.
Qed.

(** X16. A string of ASCII bytes (1 to 0x7F) decodes to itself: on it
    [utf8_to_utf32] returns the bytes as codepoints, which is also what the
    earlier version of [utf8_to_utf32], which pads every byte to 32 bits,
    returns. *)
Theorem utf8_to_utf32_ascii (malloc_content : Z -> UTF32) (s : list UTF8)
    (fuel : nat) :
  Forall (fun b => 0 < b < 0x80) s ->
  utf8_to_utf32 malloc_content (s ++ [0]) (length s + S fuel) = Done s
  /\ Earlier.utf8_to_utf32 (s ++ [0]) = Done s.
Proof.
  intros Hs. unfold UTF8 in *. split.
  - assert (Hcs : Forall (fun c => 0 < c <= 0x10FFFF) s)
      by (eapply Forall_impl; [|exact Hs]; cbn; intros; lia).
    destruct (loops_over_encoded malloc_content s Hcs [] [0] (S fuel) 0 [])
      as [Hcount Hconv].
    rewrite (utf8_encode_string_ascii s Hs) in Hcount, Hconv.
    cbn [app length] in Hcount, Hconv.
    change (Z.of_nat 0) with 0 in Hcount, Hconv.
    unfold UTF8 in *. unfold utf8_to_utf32. rewrite Hcount, Hconv.
    assert (Hend : load8 (s ++ [0]) (Z.of_nat (length s)) = Done 0)
      by exact (load8_first s [0] [] ltac:(simpl; lia)).
    destruct (loops_end malloc_content (s ++ [0]) fuel
                (Z.of_nat (length s)) (0 + Z.of_nat (length s)) s Hend)
      as [E1 E2].
    rewrite E1. cbn [bind]. exact E2.
  - unfold Earlier.utf8_to_utf32.
    rewrite earlier_strlen
      by (eapply Forall_impl; [|exact Hs]; cbn; intros; lia).
    cbn [bind]. unfold for_loop. rewrite Nat2Z.id.
    f_equal. exact (earlier_copy [] s [0] []).
Qed.

Lemma utf8_to_utf32_ascii_witness :
  utf8_to_utf32 (fun _ => 0) ([0x48; 0x69] ++ [0]) 3 = Done [0x48; 0x69]
  /\ Earlier.utf8_to_utf32 ([0x48; 0x69] ++ [0]) = Done [0x48; 0x69].
Proof.
  apply (utf8_to_utf32_ascii (fun _ => 0) [0x48; 0x69] 0).
  repeat constructor; lia.
Defined.

(** X17. A sequence cut short makes the decoder read outside the
    buffer.  After any well-formed text, a first byte that announces [n]
    bytes (0xC0 to 0xF7, so [n] is 2, 3 or 4) followed by fewer than
    [n - 1] bytes before the terminator makes the counting loop step over
    the terminator: its next test reads at or beyond the end of the
    buffer. *)
Theorem utf8_to_utf32_truncated_sequence (malloc_content : Z -> UTF32)
    (cs : list Z) (lead : UTF8) (tail : list UTF8) (fuel : nat) :
  Forall (fun c => 0 < c <= 0x10FFFF) cs ->
  0xC0 <= lead < 0xF8 ->
  Z.of_nat (length tail) + 2 <= lead_length lead ->
  utf8_to_utf32 malloc_content
    (utf8_encode_string cs ++ lead :: tail ++ [0])
    (length cs + S (S fuel))
  = OutOfBounds.
Proof.
  intros Hcs Hlead Hshort. unfold UTF8 in *.
  destruct (loops_over_encoded malloc_content cs Hcs [] (lead :: tail ++ [0])
              (S (S fuel)) 0 []) as [Hcount _].
  cbn [app length] in Hcount. change (Z.of_nat 0) with 0 in Hcount.
  unfold UTF8 in *. unfold utf8_to_utf32. rewrite Hcount.
  assert (Hload : load8 (utf8_encode_string cs ++ lead :: tail ++ [0])
                    (Z.of_nat (length (utf8_encode_string cs))) = Done lead)
    by exact (load8_first (utf8_encode_string cs) [lead] (tail ++ [0])
                ltac:(simpl; lia)).
  rewrite (count_glyphs_step _ _ _ _ _ Hload) by lia.
  cbn [count_glyphs]. unfold load8 at 1.
  replace (Z.of_nat (length (utf8_encode_string cs)) + lead_length lead
           <? Z.of_nat (length (utf8_encode_string cs ++ lead :: tail ++ [0])))
    with false
    by (symmetry; apply Z.ltb_ge;
        rewrite length_app; cbn [length]; rewrite length_app; simpl; lia).
  rewrite andb_false_r. reflexivity.
Qed.

Lemma utf8_to_utf32_truncated_sequence_witness :
  utf8_to_utf32 (fun _ => 0)
    (utf8_encode_string [0x41] ++ 0xE2 :: [0x82] ++ [0]) 3
  = OutOfBounds.
Proof.
  apply (utf8_to_utf32_truncated_sequence (fun _ => 0) [0x41] 0xE2 [0x82] 0).
  - repeat constructor; lia.
  - lia.
  - vm_compute. congruence.
Defined.

(** ** Centring inside the boundary *)

(** X18. A line that is not wider than the boundary is centred inside
    it.  When the width that [compute_init_x_to_center_line] finds for
    the line is between 0 and [glyphs_boundary.width], the X it returns is
    at or after [init_x], the line ends at or before [init_x + width], and
    the margins left and right of the line differ by one pixel at most. *)
Theorem center_line_within_boundary (face : FT_Face) (line : GlyphsLine)
    (glyphs_boundary : GlyphsBoundary) :
  let x := compute_init_x_to_center_line face line glyphs_boundary in
  let line_width := spec_line_width face (line_word32 line) in
  count_matches line ->
  0 <= line_width <= width glyphs_boundary ->
  init_x glyphs_boundary <= x
  /\ x + line_width <= init_x glyphs_boundary + width glyphs_boundary
  /\ -1 <= (x - init_x glyphs_boundary)
           - (init_x glyphs_boundary + width glyphs_boundary
              - (x + line_width))
        <= 1.
Proof.
  intros x line_width Hc Hw. unfold x.
  rewrite center_line_width by assumption. fold line_width.
  rewrite !Z.quot_div_nonneg by lia.
  Z.div_mod_to_equations. lia.
Qed.

Lemma center_line_within_boundary_witness :
  init_x main_boundary
  <= compute_init_x_to_center_line demo_face two_word_line main_boundary
  /\ compute_init_x_to_center_line demo_face two_word_line main_boundary
     + spec_line_width demo_face (line_word32 two_word_line)
     <= init_x main_boundary + width main_boundary
  /\ -1 <= (compute_init_x_to_center_line demo_face two_word_line
              main_boundary - init_x main_boundary)
           - (init_x main_boundary + width main_boundary
              - (compute_init_x_to_center_line demo_face two_word_line
                   main_boundary
                 + spec_line_width demo_face (line_word32 two_word_line)))
        <= 1.
Proof.
  apply (center_line_within_boundary demo_face two_word_line main_boundary).
  - reflexivity.
  - vm_compute. split; congruence.
Defined.

(** ** Line breaking: no early wrap, no early cut *)

Lemma chain_snoc {A : Type} (R : A -> A -> Prop) (l : list A) (a x : A) :
  chain R (l ++ [a]) -> R a x -> chain R ((l ++ [a]) ++ [x]).
Proof.
  induction l as [|b l IH]; intros Hc Hr.
  - simpl. auto.
  - destruct l as [|b' l].
    + simpl in *. destruct Hc as [Hba _]. auto.
    + cbn [app chain] in *. destruct Hc as [Hbb Hc]. split; [exact Hbb|].
      apply IH; assumption.
Qed.

Lemma chain_removelast {A : Type} (R : A -> A -> Prop) (l : list A) (x : A) :
  chain R (l ++ [x]) -> chain R l.
Proof.
  induction l as [|b l IH]; intros Hc; [exact I|].
  destruct l as [|b' l]; [exact I|].
  cbn [app chain] in *. destruct Hc as [Hbb Hc]. split; [exact Hbb|].
  apply IH. exact Hc.
Qed.

Lemma chain_replace_last {A : Type} (R : A -> A -> Prop) (l : list A)
    (x x' : A) :
  (forall a, R a x -> R a x') ->
  chain R (l ++ [x]) -> chain R (l ++ [x']).
Proof.
  intros Hx. induction l as [|b l IH]; intros Hc; [exact I|].
  destruct l as [|b' l].
  - simpl in *. destruct Hc as [Hr _]. auto.
  - cbn [app chain] in *. destruct Hc as [Hbb Hc]. split; [exact Hbb|].
    apply IH. exact Hc.
Qed.

Lemma chain_nth {A : Type} (R : A -> A -> Prop) (l : list A) (i : nat)
    (a b : A) :
  chain R l -> nth_error l i = Some a -> nth_error l (S i) = Some b -> R a b.
Proof.
  revert i. induction l as [|c l IH]; intros i Hc Ha Hb.
  - destruct i; simpl in Ha; discriminate.
  - destruct l as [|c' l]; [simpl in Hb; destruct i; simpl in Hb; discriminate|].
    destruct Hc as [Hcc Hc]. destruct i as [|i].
    + simpl in Ha, Hb. congruence.
    + apply (IH i); assumption.
Qed.

Lemma loop_greedy (face : FT_Face) ls b (words : list WordGlyphs)
    (s : LoopState) :
  Forall (measured_by face) words ->
  counters_agree s ->
  greedy_invariant face b s ->
  greedy_invariant face b
    (glyph_lines_loop (fst (face_get_string_extent face utf32_space)) ls b
       words s).
Proof.
  set (space_x := fst (face_get_string_extent face utf32_space)).
  revert s. induction words as [|w rest IH]; intros s Hm Hc Hs; [exact Hs|].
  inversion Hm as [|? ? Hw Hrest]; subst.
  destruct (no_more_space ls b s) eqn:Hh.
  - rewrite loop_break by assumption. exact Hs.
  - rewrite loop_step by assumption.
    destruct Hs as [Hchain [Hx Hne]].
    destruct (is_end_of_line b s (x_extent w + space_x)
              && (curr_line_word_count s >? 0)) eqn:Hclose.
    + apply andb_true_iff in Hclose. destruct Hclose as [Heol _].
      unfold is_end_of_line in Heol. apply Z.gtb_gt in Heol.
      apply IH; [assumption | |].
      * apply counters_agree_place, counters_agree_close, Hc.
      * repeat split; cbn [place_word close_line curr_x words_in_curr_line
          glyph_lines app].
        -- rewrite map_app. cbn [map line_word32].
           apply chain_snoc; [exact Hchain|].
           unfold wrapped_after. fold space_x. rewrite <- Hw, <- Hx. exact Heol.
        -- unfold line_advance, sum_Z. cbn [map fold_right].
           fold space_x. rewrite Hw. lia.
        -- discriminate.
    + apply IH; [assumption | now apply counters_agree_place |].
      repeat split; cbn [place_word curr_x words_in_curr_line glyph_lines].
      * revert Hchain. apply chain_replace_last.
        intros a. unfold wrapped_after.
        destruct (words_in_curr_line s); [now elim Hne | exact (fun H => H)].
      * rewrite line_advance_snoc, Hx. fold space_x. rewrite Hw. lia.
      * destruct (words_in_curr_line s); discriminate.
Qed.

(** X19. The line breaker wraps only when it has to.  For words that
    carry their measured extents, each line that [compute_glyph_lines]
    returns after another one starts with a word that did not fit on that
    one: from [init_x], the words of the line before, each with its space,
    and this word with its space end beyond [width]. *)
Theorem compute_glyph_lines_greedy (face : FT_Face)
    (glyphs_boundary : GlyphsBoundary) (word_glyps : list WordGlyphs) :
  Forall (measured_by face) word_glyps ->
  forall (i : nat) (line next : GlyphsLine),
    nth_error (compute_glyph_lines face glyphs_boundary word_glyps) i
    = Some line ->
    nth_error (compute_glyph_lines face glyphs_boundary word_glyps) (S i)
    = Some next ->
    exists (w : UTF32_string) (others : list UTF32_string),
      line_word32 next = w :: others
      /\ init_x glyphs_boundary + line_advance face (line_word32 line)
         + (fst (face_get_string_extent face w)
            + fst (face_get_string_extent face utf32_space))
         > width glyphs_boundary.
Proof.
  intros Hm i line next Hi Hn.
  assert (Hchain : chain (wrapped_after face glyphs_boundary)
            (map line_word32
               (compute_glyph_lines face glyphs_boundary word_glyps))).
  { destruct word_glyps as [|w rest]; [exact I|].
    inversion Hm as [|? ? Hw Hrest]; subst.
    unfold compute_glyph_lines.
    destruct (no_more_space (face_get_line_spacing face) glyphs_boundary
                (loop_entry glyphs_boundary)) eqn:Hh.
    - rewrite loop_break by assumption. exact I.
    - rewrite loop_step by assumption.
      cbn [loop_entry curr_line_word_count]. rewrite andb_false_r.
      fold (loop_entry glyphs_boundary).
      destruct (loop_greedy face (face_get_line_spacing face) glyphs_boundary
                  rest
                  (place_word w
                     (x_extent w + fst (face_get_string_extent face utf32_space))
                     (loop_entry glyphs_boundary)) Hrest)
        as [Hc [_ _]].
      + apply counters_agree_place, loop_entry_counters_agree.
      + repeat split; cbn.
        * unfold line_advance, sum_Z. cbn [map fold_right].
          rewrite Hw. lia.
        * discriminate.
      + unfold write_last_line.
        destruct (height_is_overflowed _); cbn [negb].
        * apply chain_removelast in Hc. exact Hc.
        * rewrite map_app. exact Hc. }
  pose proof (chain_nth _ _ i (line_word32 line) (line_word32 next) Hchain
                (map_nth_error line_word32 _ _ Hi)
                (map_nth_error line_word32 _ _ Hn)) as Hr.
  unfold wrapped_after in Hr.
  destruct (line_word32 next) as [|w others]; [destruct Hr|].
  exists w, others. split; [reflexivity | exact Hr].
Qed.

Lemma compute_glyph_lines_greedy_witness :
  exists (line next : GlyphsLine) (w : UTF32_string)
         (others : list UTF32_string),
    nth_error (compute_glyph_lines demo_face narrow_boundary five_words) 0
    = Some line
    /\ nth_error (compute_glyph_lines demo_face narrow_boundary five_words) 1
       = Some next
    /\ line_word32 next = w :: others
    /\ init_x narrow_boundary + line_advance demo_face (line_word32 line)
       + (fst (face_get_string_extent demo_face w)
          + fst (face_get_string_extent demo_face utf32_space))
       > width narrow_boundary.
Proof.
  eexists. eexists.
  destruct (compute_glyph_lines_greedy demo_face narrow_boundary five_words
              ltac:(repeat constructor) 0%nat _ _ eq_refl eq_refl)
    as [w [others [Hw Hgt]]].
  exists w, others. repeat split; assumption.
Defined.

(** X20. The line breaker cuts the text only when it has to.  When
    [compute_glyph_lines] has stopped for height ([height_is_overflowed]
    is set, the only case in which words are left out), the line that
    would come next, at [init_y] plus one line spacing for each line
    returned, fails the height test: its Y plus the line spacing reaches
    [init_y + height]. *)
Theorem compute_glyph_lines_cut_only_when_full (face : FT_Face)
    (glyphs_boundary : GlyphsBoundary) (word_glyps : list WordGlyphs) :
  let lines := compute_glyph_lines face glyphs_boundary word_glyps in
  let line_spacing := face_get_line_spacing face in
  height_is_overflowed
    (compute_glyph_lines_state face glyphs_boundary word_glyps) = true ->
  init_y glyphs_boundary + Z.of_nat (length lines) * line_spacing
  + line_spacing
  >= init_y glyphs_boundary + height glyphs_boundary.
Proof.
  intros lines line_spacing Hflag.
  set (st := compute_glyph_lines_state face glyphs_boundary word_glyps) in *.
  assert (Hlines : lines = glyph_lines st).
  { unfold lines.
    change (compute_glyph_lines face glyphs_boundary word_glyps)
      with (write_last_line st).
    unfold write_last_line. now rewrite Hflag. }
  assert (Hfull : no_more_space line_spacing glyphs_boundary st = true)
    by (apply loop_overflow_no_space; [discriminate | exact Hflag]).
  assert (Hy : y_invariant glyphs_boundary line_spacing st)
    by apply loop_y_invariant, loop_entry_y_invariant.
  destruct Hy as [_ Hy].
  unfold no_more_space in Hfull. rewrite Hy in Hfull.
  rewrite Hlines. unfold y_of_index in Hfull.
  apply Z.geb_le in Hfull. lia.
Qed.

Lemma compute_glyph_lines_cut_only_when_full_witness :
  init_y low_boundary
  + Z.of_nat (length (compute_glyph_lines demo_face low_boundary four_words))
    * face_get_line_spacing demo_face
  + face_get_line_spacing demo_face
  >= init_y low_boundary + height low_boundary.
Proof.
  apply (compute_glyph_lines_cut_only_when_full demo_face low_boundary
           four_words).
  reflexivity.
Defined.

(** ** UTF-8: the two loops agree *)

Lemma loops_agree (malloc_content : Z -> UTF32) (buf : list UTF8)
    (fuel : nat) :
  forall (p word_length : Z) (utf32_word s : list UTF32),
    convert_glyphs malloc_content buf fuel p utf32_word = Done s ->
    count_glyphs buf fuel p word_length
    = Done (word_length + Z.of_nat (length s)
            - Z.of_nat (length utf32_word))
    /\ (length utf32_word <= length s)%nat.
Proof.
  induction fuel as [|fuel IH]; intros p word_length utf32_word s Hconv;
    [discriminate|].
  cbn [convert_glyphs count_glyphs] in *.
  destruct (load8 buf p) as [c | |]; cbn [bind] in *; try discriminate.
  destruct (c =? 0).
  - inversion Hconv; subst. split; [f_equal; lia | lia].
  - destruct (next_utf8_glyph_length buf p) as [n | |]; cbn [bind] in *;
      try discriminate.
    destruct (decode_glyph malloc_content buf p n
                (Z.of_nat (length utf32_word))) as [v | |];
      cbn [bind] in *; try discriminate.
    destruct (IH (p + n) (word_length + 1) (utf32_word ++ [v]) s Hconv)
      as [Hcount Hlen].
    rewrite length_app in Hcount, Hlen. cbn [length] in Hcount, Hlen.
    rewrite Hcount. split; [f_equal; lia | lia].
Qed.

(** X21. Whenever [utf8_to_utf32] returns, the string it returns has
    exactly [word_length] cells, the number that its first loop counted
    and for which, with one more for the terminator, it allocated the
    block: the second loop never writes past the allocation, whatever the
    input bytes. *)
Theorem utf8_to_utf32_fills_allocation (malloc_content : Z -> UTF32)
    (buf : list UTF8) (fuel : nat) (s : UTF32_string) :
  utf8_to_utf32 malloc_content buf fuel = Done s ->
  count_glyphs buf fuel 0 0 = Done (Z.of_nat (length s)).
Proof.
  unfold utf8_to_utf32. intros H.
  destruct (count_glyphs buf fuel 0 0) as [n | |] eqn:Hn; cbn [bind] in H;
    try discriminate.
  destruct (loops_agree malloc_content buf fuel 0 0 [] s H) as [Hc _].
  rewrite Hc in Hn. rewrite <- Hn. f_equal. simpl. lia.
Qed.

Lemma utf8_to_utf32_fills_allocation_witness :
  count_glyphs [0xC3; 0xC3; 0x80; 0] 4 0 0
  = Done (Z.of_nat (length [195; 7; 192])).
Proof.
  apply (utf8_to_utf32_fills_allocation (fun _ => 7) [0xC3; 0xC3; 0x80; 0] 4
           [195; 7; 192]).
  reflexivity.
Defined.
